(** * phonopy/structure/cells.py: supercells, primitive cells, lattice
      reduction and shortest periodic vectors

    A shallow embedding of [phonopy.structure.cells].

    Numbers.  The numpy [double] arrays of the source are modelled over the
    exact rationals [Q]: every arithmetic operation is the exact one, two
    numbers are the same when they are [Qeq]-equal, and a comparison that goes
    through [np.sqrt] is decided exactly by squaring.  Atom indices and atom
    counts are [nat]; the entries of the integer supercell matrix are [Z].

    Effects.  The source raises Python exceptions ([assert], a singular
    matrix handed to [np.linalg.inv], an index out of range, an integer
    division by zero) and reports some failures with [print].  Exceptions are
    the [Raise] branch of [result]; printed lines are returned next to the
    value. *)

From Stdlib Require Import String.
From Stdlib Require Import QArith Qround Qabs ZArith List Lia Lra Lqa Bool.
From Stdlib Require Import Permutation PeanoNat Sorted.
Import ListNotations.


(* ------------------------------------------------------------------ *)
(** ** Exceptions *)

Inductive exn : Set :=
| AssertionError
| LinAlgError
| IndexError
| TypeError
| ZeroDivisionError.

Inductive result (A : Type) : Type :=
| Ok (a : A)
| Raise (e : exn).

Arguments Ok {A} a.
Arguments Raise {A} e.

Definition bind {A B} (m : result A) (k : A -> result B) : result B :=
  match m with
  | Ok a => k a
  | Raise e => Raise e
  end.

Declare Scope result_scope.
Delimit Scope result_scope with result.
Notation "x <- m ;; k" := (bind m (fun x => k))
  (at level 61, m at next level, right associativity) : result_scope.
Notation "' p <- m ;; k" := (bind m (fun p => k))
  (at level 61, p pattern, m at next level, right associativity) : result_scope.
Open Scope result_scope.

(** [l[i]] on a Python list or a numpy array (non-negative index). *)
Definition getitem {A} (l : list A) (i : nat) : result A :=
  match nth_error l i with
  | Some a => Ok a
  | None => Raise IndexError
  end.

(** [l[i] = v]; the source only assigns inside the array. *)
Fixpoint setitem {A} (l : list A) (i : nat) (v : A) : list A :=
  match l, i with
  | [], _ => []
  | _ :: t, O => v :: t
  | h :: t, S j => h :: setitem t j v
  end.

(** [np.where(mask)[0]]: the positions at which a test holds. *)
Fixpoint where_from {A} (test : A -> bool) (l : list A) (i : nat) : list nat :=
  match l with
  | [] => []
  | a :: t => if test a then i :: where_from test t (S i)
              else where_from test t (S i)
  end.

Definition np_where {A} (test : A -> bool) (l : list A) : list nat :=
  where_from test l 0.

(** [enumerate(l)]. *)
Fixpoint enumerate_from {A} (i : nat) (l : list A) : list (nat * A) :=
  match l with
  | [] => []
  | a :: t => (i, a) :: enumerate_from (S i) t
  end.

Definition enumerate {A} (l : list A) : list (nat * A) := enumerate_from 0 l.

(* ------------------------------------------------------------------ *)
(** ** Numbers, 3-vectors and 3x3 matrices *)

Open Scope Q_scope.

Definition Qltb (x y : Q) : bool := negb (Qle_bool y x).

(** [np.floor]. *)
Definition np_floor (x : Q) : Q := inject_Z (Qfloor x).

(** [np.rint]: the nearest integer, a half going to the even neighbour. *)
Definition np_rint (x : Q) : Q :=
  let f := Qfloor x in
  match (x - inject_Z f) ?= (1 # 2) with
  | Lt => inject_Z f
  | Gt => inject_Z (f + 1)
  | Eq => if Z.even f then inject_Z f else inject_Z (f + 1)
  end.

(** [np.sqrt(a) < s] for [0 <= a], decided without the root. *)
Definition sqrt_lt (a s : Q) : bool := Qltb 0 s && Qltb a (s * s).

Record vec : Set := V3 { vx : Q; vy : Q; vz : Q }.

(** A 3x3 array, stored by rows. *)
Record mat : Set := M3 { row0 : vec; row1 : vec; row2 : vec }.

Definition vmap (f : Q -> Q) (a : vec) : vec :=
  V3 (f (vx a)) (f (vy a)) (f (vz a)).

Definition vadd (a b : vec) : vec :=
  V3 (vx a + vx b) (vy a + vy b) (vz a + vz b).

Definition vsub (a b : vec) : vec :=
  V3 (vx a - vx b) (vy a - vy b) (vz a - vz b).

Definition vneg (a : vec) : vec := V3 (- vx a) (- vy a) (- vz a).

Definition vscale (k : Q) (a : vec) : vec := V3 (k * vx a) (k * vy a) (k * vz a).

(** [np.vdot(a, b)], also [(a * b).sum()]. *)
Definition vdot (a b : vec) : Q := vx a * vx b + vy a * vy b + vz a * vz b.

(** [(a ** 2).sum()]. *)
Definition norm2 (a : vec) : Q := vdot a a.

Definition col0 (m : mat) : vec := V3 (vx (row0 m)) (vx (row1 m)) (vx (row2 m)).
Definition col1 (m : mat) : vec := V3 (vy (row0 m)) (vy (row1 m)) (vy (row2 m)).
Definition col2 (m : mat) : vec := V3 (vz (row0 m)) (vz (row1 m)) (vz (row2 m)).

(** [m.T]. *)
Definition transpose (m : mat) : mat := M3 (col0 m) (col1 m) (col2 m).

(** [np.dot(v, m)] for a row vector [v]. *)
Definition vec_mat (v : vec) (m : mat) : vec :=
  V3 (vdot v (col0 m)) (vdot v (col1 m)) (vdot v (col2 m)).

(** [np.dot(a, b)] for two matrices. *)
Definition mat_mul (a b : mat) : mat :=
  M3 (vec_mat (row0 a) b) (vec_mat (row1 a) b) (vec_mat (row2 a) b).

(** [np.linalg.det] of the matrix with rows [a], [b], [c]. *)
Definition det3 (a b c : vec) : Q :=
  vx a * (vy b * vz c - vz b * vy c)
  - vy a * (vx b * vz c - vz b * vx c)
  + vz a * (vx b * vy c - vy b * vx c).

Definition mdet (m : mat) : Q := det3 (row0 m) (row1 m) (row2 m).

(** [np.linalg.inv]: the adjugate over the determinant; a singular matrix
    raises [LinAlgError]. *)
Definition inv (m : mat) : result mat :=
  let d := mdet m in
  if Qeq_bool d 0 then Raise LinAlgError
  else
    let '(M3 (V3 a b c) (V3 d0 e f) (V3 g h i)) := m in
    Ok (M3 (V3 ((e * i - f * h) / d) ((c * h - b * i) / d) ((b * f - c * e) / d))
           (V3 ((f * g - d0 * i) / d) ((a * i - c * g) / d) ((c * d0 - a * f) / d))
           (V3 ((d0 * h - e * g) / d) ((b * g - a * h) / d) ((a * e - b * d0) / d))).

Definition identity : mat := M3 (V3 1 0 0) (V3 0 1 0) (V3 0 0 1).

(** Equality of vectors and matrices as arrays of rationals. *)
Definition veq (a b : vec) : Prop :=
  vx a == vx b /\ vy a == vy b /\ vz a == vz b.

Definition meq (a b : mat) : Prop :=
  veq (row0 a) (row0 b) /\ veq (row1 a) (row1 b) /\ veq (row2 a) (row2 b).

(* ------------------------------------------------------------------ *)
(** ** The atomic-structure container *)

(** Modelled from the spec: the class [PhonopyAtoms]
    ([phonopy.structure.atoms], imported as [Atoms]) is not part of the
    sources at hand.  Following the data model of the specification it is a
    value object: one species number per atom, optional masses and magnetic
    moments, fractional positions, and one lattice matrix whose rows are the
    basis vectors.  [Atoms()] without arguments is the empty structure: no
    atoms and no lattice. *)
Record Atoms : Set := mkAtoms {
  numbers : list Z;
  masses : option (list Q);
  magmoms : option (list Q);
  scaled_positions : list vec;
  cell : option mat;
  pbc : bool
}.

Definition empty_Atoms : Atoms := mkAtoms [] None None [] None false.

Definition get_number_of_atoms (a : Atoms) : nat := length (scaled_positions a).

Definition get_cell (a : Atoms) : result mat :=
  match cell a with
  | Some l => Ok l
  | None => Raise TypeError
  end.

(** [cell.get_positions()]: Cartesian positions. *)
Definition get_positions (a : Atoms) : result (list vec) :=
  l <- get_cell a ;;
  Ok (map (fun p => vec_mat p l) (scaled_positions a)).

(** The invariant of the data model: one species, mass and moment per atom. *)
Definition well_formed (a : Atoms) : Prop :=
  length (numbers a) = length (scaled_positions a) /\
  (forall ms, masses a = Some ms -> length ms = length (scaled_positions a)) /\
  (forall mm, magmoms a = Some mm -> length mm = length (scaled_positions a)).

(* ------------------------------------------------------------------ *)
(** ** [trim_cell] *)

(** The variables of the loop of [trim_cell].  [trimed_positions] holds the
    rows [trimed_positions[:num_atom]] of the source, the only ones it reads. *)
Record trim_state : Set := mkTrim {
  trimed_positions : list vec;
  trimed_numbers : list Z;
  trimed_masses : option (list Q);
  trimed_magmoms : option (list Q);
  extracted_atoms : list nat;
  mapping_table : list nat
}.

Definition num_atom (st : trim_state) : nat := length (trimed_positions st).

(** One row of [distances < symprec]: the kept position [kept] against the
    folded position [pos], through [diff -= np.rint(diff)] and
    [np.sqrt(np.sum(np.dot(diff, trimed_lattice) ** 2))]. *)
Definition overlaps (trimed_lattice : mat) (symprec : Q) (pos kept : vec) : bool :=
  let diff := vsub kept pos in
  let diff := vsub diff (vmap np_rint diff) in
  sqrt_lt (norm2 (vec_mat diff trimed_lattice)) symprec.

Definition overlap_indices (trimed_lattice : mat) (symprec : Q)
    (kept : list vec) (pos : vec) : list nat :=
  np_where (overlaps trimed_lattice symprec pos) kept.

(** [masses[i]] when [masses is not None]. *)
Definition optional_item (o : option (list Q)) (i : nat) : result (option Q) :=
  match o with
  | None => Ok None
  | Some l => x <- getitem l i ;; Ok (Some x)
  end.

(** [acc.append(x)] when the accumulator is not [None]. *)
Definition optional_append (acc : option (list Q)) (x : option Q) : option (list Q) :=
  match acc, x with
  | Some l, Some v => Some (l ++ [v])
  | _, _ => acc
  end.

(** The body of [for i, pos in enumerate(positions_in_new_lattice)]. *)
Definition trim_step (trimed_lattice : mat) (symprec : Q) (c : Atoms)
    (st : trim_state) (i : nat) (pos : vec) : result trim_state :=
  overlap <-
    (if (0 <? num_atom st)%nat then
       let idx := overlap_indices trimed_lattice symprec (trimed_positions st) pos in
       if (0 <? length idx)%nat then
         if (length idx =? 1)%nat then
           k <- getitem idx 0 ;;
           e <- getitem (extracted_atoms st) k ;;
           Ok (Some e)
         else Raise AssertionError
       else Ok None
     else Ok None) ;;
  match overlap with
  | Some e =>
      Ok (mkTrim (trimed_positions st) (trimed_numbers st) (trimed_masses st)
                 (trimed_magmoms st) (extracted_atoms st)
                 (setitem (mapping_table st) i e))
  | None =>
      n <- getitem (numbers c) i ;;
      m <- optional_item (masses c) i ;;
      g <- optional_item (magmoms c) i ;;
      Ok (mkTrim (trimed_positions st ++ [pos]) (trimed_numbers st ++ [n])
                 (optional_append (trimed_masses st) m)
                 (optional_append (trimed_magmoms st) g)
                 (extracted_atoms st ++ [i])
                 (mapping_table st))
  end.

Fixpoint trim_loop (trimed_lattice : mat) (symprec : Q) (c : Atoms)
    (todo : list (nat * vec)) (st : trim_state) : result trim_state :=
  match todo with
  | [] => Ok st
  | (i, pos) :: rest =>
      st' <- trim_step trimed_lattice symprec c st i pos ;;
      trim_loop trimed_lattice symprec c rest st'
  end.

(** The state before the loop: nothing kept, [mapping_table = np.arange(n)]. *)
Definition trim_init (c : Atoms) : trim_state :=
  mkTrim [] []
         (match masses c with None => None | Some _ => Some [] end)
         (match magmoms c with None => None | Some _ => Some [] end)
         []
         (seq 0 (length (scaled_positions c))).

(** [positions_in_new_lattice], after [-= np.floor(...)]. *)
Definition positions_in_new_lattice (inv_axes : mat) (positions : list vec) : list vec :=
  map (fun p => let q := vec_mat p (transpose inv_axes) in
                vsub q (vmap np_floor q)) positions.

Definition trim_cell (relative_axes : mat) (c : Atoms) (symprec : Q)
    : result (Atoms * list nat * list nat) :=
  lattice <- get_cell c ;;
  let trimed_lattice := mat_mul (transpose relative_axes) lattice in
  inv_axes <- inv relative_axes ;;
  let pnl := positions_in_new_lattice inv_axes (scaled_positions c) in
  st <- trim_loop trimed_lattice symprec c (enumerate pnl) (trim_init c) ;;
  Ok (mkAtoms (trimed_numbers st) (trimed_masses st) (trimed_magmoms st)
              (trimed_positions st) (Some trimed_lattice) true,
      extracted_atoms st, mapping_table st).

(** A small example: two atoms of a cubic cell that fold onto each other
    under the axes [diag(1/2, 1, 1)]. *)
Definition cubic (a : Q) : mat := M3 (V3 a 0 0) (V3 0 a 0) (V3 0 0 a).

Definition two_atoms : Atoms :=
  mkAtoms [14%Z; 14%Z] (Some [28; 28]) None
          [V3 0 0 0; V3 (1 # 2) 0 0] (Some (cubic 4)) true.

Definition half_x : mat := M3 (V3 (1 # 2) 0 0) (V3 0 1 0) (V3 0 0 1).

(* ------------------------------------------------------------------ *)
(** ** Printed output *)

(** What [print] writes: a line of text, or an index table. *)
Inductive printed : Set :=
| Line (s : string)
| Table (t : list nat).

(* ------------------------------------------------------------------ *)
(** ** [determinant] and the integer supercell matrix *)

Open Scope Z_scope.

Record zvec : Set := Z3 { zx : Z; zy : Z; zz : Z }.

(** An integer 3x3 array, stored by rows. *)
Record zmat : Set := ZM { zrow0 : zvec; zrow1 : zvec; zrow2 : zvec }.

Definition zcol0 (m : zmat) : zvec := Z3 (zx (zrow0 m)) (zx (zrow1 m)) (zx (zrow2 m)).
Definition zcol1 (m : zmat) : zvec := Z3 (zy (zrow0 m)) (zy (zrow1 m)) (zy (zrow2 m)).
Definition zcol2 (m : zmat) : zvec := Z3 (zz (zrow0 m)) (zz (zrow1 m)) (zz (zrow2 m)).

Definition zadd (a b : zvec) : zvec := Z3 (zx a + zx b) (zy a + zy b) (zz a + zz b).

Definition determinant (m : zmat) : Z :=
  let '(ZM (Z3 m00 m01 m02) (Z3 m10 m11 m12) (Z3 m20 m21 m22)) := m in
  m00 * m11 * m22 -
  m00 * m12 * m21 +
  m01 * m12 * m20 -
  m01 * m10 * m22 +
  m02 * m10 * m21 -
  m02 * m11 * m20.

(** [max] and [min] of a column of the array [axes]. *)
Definition zmax_list (l : list Z) : Z :=
  match l with
  | [] => 0
  | h :: t => fold_left Z.max t h
  end.

Definition zmin_list (l : list Z) : Z :=
  match l with
  | [] => 0
  | h :: t => fold_left Z.min t h
  end.

(** [Supercell._get_surrounding_frame]. *)
Definition _get_surrounding_frame (supercell_matrix : zmat) : zvec :=
  let m := supercell_matrix in
  let axes := [ Z3 0 0 0;
                zcol0 m;
                zcol1 m;
                zcol2 m;
                zadd (zcol1 m) (zcol2 m);
                zadd (zcol2 m) (zcol0 m);
                zadd (zcol0 m) (zcol1 m);
                zadd (zadd (zcol0 m) (zcol1 m)) (zcol2 m) ] in
  let span (f : zvec -> Z) := zmax_list (map f axes) - zmin_list (map f axes) in
  Z3 (span zx) (span zy) (span zz).

(** [range(n)]. *)
Definition range (n : Z) : list Z := map Z.of_nat (seq 0 (Z.to_nat n)).

Close Scope Z_scope.

(* ------------------------------------------------------------------ *)
(** ** [Supercell] *)

(** [for x in l: s = body(s, x)], stopping at the first exception. *)
Fixpoint for_each {A S} (l : list A) (body : S -> A -> result S) (s : S) : result S :=
  match l with
  | [] => Ok s
  | a :: t => s' <- body s a ;; for_each t body s'
  end.

(** The lists that [_get_simple_supercell] fills. *)
Record simple_state : Set := mkSimple {
  positions_multi : list vec;
  numbers_multi : list Z;
  masses_multi : option (list Q);
  magmoms_multi : option (list Q);
  atom_map : list nat
}.

(** [Supercell._get_simple_supercell]. *)
Definition _get_simple_supercell (multi : zvec) (unitcell : Atoms)
    : result (Atoms * list nat) :=
  lattice <- get_cell unitcell ;;
  let init :=
    mkSimple [] []
             (match masses unitcell with None => None | Some _ => Some [] end)
             (match magmoms unitcell with None => None | Some _ => Some [] end)
             [] in
  st <- for_each (enumerate (scaled_positions unitcell)) (fun st '(l, pos) =>
        for_each (range (zz multi)) (fun st i =>
        for_each (range (zy multi)) (fun st j =>
        for_each (range (zx multi)) (fun st k =>
          n <- getitem (numbers unitcell) l ;;
          m <- optional_item (masses unitcell) l ;;
          g <- optional_item (magmoms unitcell) l ;;
          Ok (mkSimple
                (positions_multi st ++
                   [V3 ((vx pos + inject_Z k) / inject_Z (zx multi))
                       ((vy pos + inject_Z j) / inject_Z (zy multi))
                       ((vz pos + inject_Z i) / inject_Z (zz multi))])
                (numbers_multi st ++ [n])
                (optional_append (masses_multi st) m)
                (optional_append (magmoms_multi st) g)
                (atom_map st ++ [l]))) st) st) st) init ;;
  Ok (mkAtoms (numbers_multi st) (masses_multi st) (magmoms_multi st)
              (positions_multi st)
              (Some (M3 (vscale (inject_Z (zx multi)) (row0 lattice))
                        (vscale (inject_Z (zy multi)) (row1 lattice))
                        (vscale (inject_Z (zz multi)) (row2 lattice))))
              true,
      atom_map st).

(** A Python [dict] built from [(key, value)] pairs: a later pair with a key
    already present replaces its value. *)
Fixpoint dict_set (d : list (nat * nat)) (k v : nat) : list (nat * nat) :=
  match d with
  | [] => [(k, v)]
  | (k', v') :: t => if (k' =? k)%nat then (k, v) :: t else (k', v') :: dict_set t k v
  end.

Definition dict (pairs : list (nat * nat)) : list (nat * nat) :=
  fold_left (fun d '(k, v) => dict_set d k v) pairs [].

Fixpoint dict_get (d : list (nat * nat)) (k : nat) : option nat :=
  match d with
  | [] => None
  | (k', v) :: t => if (k' =? k)%nat then Some v else dict_get t k
  end.

(** An instance of [Supercell]: the structure it is (a subclass of [Atoms])
    and its attributes. *)
Record Supercell : Set := mkSupercell {
  sc_atoms : Atoms;
  _supercell_matrix : zmat;
  _s2u_map : option (list nat);
  _u2s_map : option (list nat);
  _u2u_map : option (list (nat * nat))
}.

Definition zrow_over (r : zvec) (n : Z) : vec :=
  V3 (inject_Z (zx r) / inject_Z n) (inject_Z (zy r) / inject_Z n)
     (inject_Z (zz r) / inject_Z n).

(** [Supercell._create_supercell].  A zero entry of the frame makes the
    source divide by [0.0]: numpy goes on with [inf] and [nan], values the
    rationals do not have, and the embedding stops there with
    [ZeroDivisionError]. *)
Definition _create_supercell (mat : zmat) (unitcell : Atoms) (symprec : Q)
    : result (Supercell * list printed) :=
  let frame := _get_surrounding_frame mat in
  '(sur_cell, u2sur_map) <- _get_simple_supercell frame unitcell ;;
  if ((zx frame =? 0) || (zy frame =? 0) || (zz frame =? 0))%Z
  then Raise ZeroDivisionError
  else
  let trim_frame := M3 (zrow_over (zrow0 mat) (zx frame))
                       (zrow_over (zrow1 mat) (zy frame))
                       (zrow_over (zrow2 mat) (zz frame)) in
  '(supercell, sur2s_map, mapping_table) <- trim_cell trim_frame sur_cell symprec ;;
  let num_satom := get_number_of_atoms supercell in
  let num_uatom := get_number_of_atoms unitcell in
  if (num_uatom =? 0)%nat then Raise ZeroDivisionError
  else
  let multi := (num_satom / num_uatom)%nat in
  if negb (Z.of_nat multi =? determinant mat)%Z then
    Ok (mkSupercell empty_Atoms mat None None None,
        [ Line "Supercell creation failed.";
          Line "Probably some atoms are overwrapped. The mapping table is give below.";
          Table mapping_table ])
  else
    let u2s := map (fun i => (i * multi)%nat) (seq 0 num_uatom) in
    s2u <- for_each sur2s_map (fun acc s =>
             u <- getitem u2sur_map s ;; Ok (acc ++ [(u * multi)%nat])) [] ;;
    Ok (mkSupercell
          (mkAtoms (numbers supercell) (masses supercell) (magmoms supercell)
                   (scaled_positions supercell) (cell supercell) true)
          mat
          (Some s2u)
          (Some u2s)
          (Some (dict (map (fun '(i, j) => (j, i)) (enumerate u2s)))),
        []).

(** [Supercell.__init__], reached through [get_supercell]. *)
Definition get_supercell (unitcell : Atoms) (supercell_matrix : zmat) (symprec : Q)
    : result (Supercell * list printed) :=
  _create_supercell supercell_matrix unitcell symprec.

(* ------------------------------------------------------------------ *)
(** ** [Primitive] *)

(** [Primitive._primitive_cell]: the trimmed structure and [_p2s_map]. *)
Definition _primitive_cell (primitive_matrix : mat) (supercell : Atoms) (symprec : Q)
    : result (Atoms * list nat) :=
  '(trimed_cell, p2s_map, mapping_table) <- trim_cell primitive_matrix supercell symprec ;;
  Ok (mkAtoms (numbers trimed_cell) (masses trimed_cell) (magmoms trimed_cell)
              (scaled_positions trimed_cell) (cell trimed_cell) true,
      p2s_map).

(** [(abs(diff) < self._symprec).all()]. *)
Definition all_within (symprec : Q) (diff : vec) : bool :=
  Qltb (Qabs (vx diff)) symprec && Qltb (Qabs (vy diff)) symprec
  && Qltb (Qabs (vz diff)) symprec.

(** The inner loop [for j in self._p2s_map: ... break]: the first [j] of
    [p2s_map] whose atom matches [s_pos], if there is one. *)
Fixpoint first_match (inv_F : mat) (symprec : Q) (pos : list vec) (s_pos : vec)
    (p2s_map : list nat) : result (option nat) :=
  match p2s_map with
  | [] => Ok None
  | j :: rest =>
      pj <- getitem pos j ;;
      let p_pos := vec_mat pj (transpose inv_F) in
      let diff := vsub p_pos s_pos in
      let diff := vsub diff (vmap np_rint diff) in
      if all_within symprec diff then Ok (Some j)
      else first_match inv_F symprec pos s_pos rest
  end.

(** [Primitive._supercell_to_primitive_map]: the value stored in
    [self._s2p_map]. *)
Definition _supercell_to_primitive_map (primitive_matrix : mat) (p2s_map : list nat)
    (symprec : Q) (pos : list vec) : result (list nat) :=
  inv_F <- inv primitive_matrix ;;
  for_each (seq 0 (length pos)) (fun s2p_map i =>
    pi <- getitem pos i ;;
    let s_pos := vec_mat pi (transpose inv_F) in
    found <- first_match inv_F symprec pos s_pos p2s_map ;;
    match found with
    | Some j => Ok (s2p_map ++ [j])
    | None => Ok s2p_map
    end) [].

(** [Primitive._primitive_to_primitive_map]. *)
Definition _primitive_to_primitive_map (p2s_map : list nat) : list (nat * nat) :=
  dict (map (fun '(i, j) => (j, i)) (enumerate p2s_map)).

(* ------------------------------------------------------------------ *)
(** ** Delaunay reduction *)

Definition vzero : vec := V3 0 0 0.

(** [a[i]] for an index inside the array. *)
Definition row {A} (d : A) (a : list A) (i : nat) : A := nth i a d.

(** [range(a, b)] over the natural numbers. *)
Definition nrange (a b : nat) : list nat := seq a (b - a).

(** [_reduce_bases]: the bases after the call and the value returned.  The
    array is changed in place in the source. *)
Definition _reduce_bases (extended_bases : list vec) (tolerance : Q)
    : list vec * bool :=
  let metric i j := vdot (row vzero extended_bases i) (row vzero extended_bases j) in
  let pairs := flat_map (fun i => map (fun j => (i, j)) (nrange (i + 1) 4)) (nrange 0 4) in
  match find (fun '(i, j) => Qltb tolerance (metric i j)) pairs with
  | Some (i, j) =>
      let eb := fold_left (fun eb k =>
                  if negb (k =? i)%nat && negb (k =? j)%nat
                  then setitem eb k (vadd (row vzero eb k) (row vzero eb i))
                  else eb) (nrange 0 4) extended_bases in
      let eb := setitem eb i (vneg (row vzero eb i)) in
      let eb := setitem eb j (row vzero eb j) in
      (eb, false)
  | None => (extended_bases, true)
  end.

(** Stable insertion sort, [sorted(l, key=key)]. *)
Fixpoint insert_by (key : vec -> Q) (x : vec) (l : list vec) : list vec :=
  match l with
  | [] => [x]
  | y :: t => if Qle_bool (key x) (key y) then x :: y :: t
              else y :: insert_by key x t
  end.

Definition sorted_by (key : vec -> Q) (l : list vec) : list vec :=
  fold_right (insert_by key) [] l.

(** The array [basis] of [_get_shortest_bases_from_extented_bases] before
    it is sorted: the four extended vectors and three pairwise sums. *)
Definition candidate_bases (extended_bases : list vec) : list vec :=
  let eb := row vzero extended_bases in
  [ eb 0%nat; eb 1%nat; eb 2%nat; eb 3%nat;
    vadd (eb 0%nat) (eb 1%nat);
    vadd (eb 1%nat) (eb 2%nat);
    vadd (eb 2%nat) (eb 0%nat) ].

(** The search of [_get_shortest_bases_from_extented_bases] through the
    sorted array [basis]: the first three rows [i < j < k] whose determinant
    exceeds the tolerance in magnitude, else the first three rows and a
    printed line. *)
Definition choose_independent (basis : list vec) (tolerance : Q) : mat * list printed :=
  let b := row vzero basis in
  let triples :=
    flat_map (fun i =>
    flat_map (fun j =>
    map (fun k => (i, j, k)) (nrange (j + 1) 7)) (nrange (i + 1) 7)) (nrange 0 7) in
  match find (fun '(i, j, k) => Qltb tolerance (Qabs (det3 (b i) (b j) (b k)))) triples with
  | Some (i, j, k) => (M3 (b i) (b j) (b k), [])
  | None => (M3 (b 0%nat) (b 1%nat) (b 2%nat), [Line "Delaunary reduction is failed."])
  end.

(** [_get_shortest_bases_from_extented_bases]. *)
Definition _get_shortest_bases_from_extented_bases (extended_bases : list vec)
    (tolerance : Q) : mat * list printed :=
  choose_independent (sorted_by norm2 (candidate_bases extended_bases)) tolerance.

(** The loop [for i in range(100): if _reduce_bases(...): break]: the bases
    after it and the value [i] is left with. *)
Fixpoint reduce_loop (indices : list nat) (last : nat) (extended_bases : list vec)
    (tolerance : Q) : list vec * nat :=
  match indices with
  | [] => (extended_bases, last)
  | i :: rest =>
      let '(eb, done) := _reduce_bases extended_bases tolerance in
      if done then (eb, i) else reduce_loop rest i eb tolerance
  end.

(** The array [extended_bases] at its creation: the three rows of the
    lattice and minus their sum. *)
Definition extend (lattice : mat) : list vec :=
  [ row0 lattice; row1 lattice; row2 lattice;
    vneg (vadd (vadd (row0 lattice) (row1 lattice)) (row2 lattice)) ].

(** [get_Delaunay_reduction]: the basis returned and the lines printed. *)
Definition get_Delaunay_reduction (lattice : mat) (tolerance : Q) : mat * list printed :=
  let extended_bases := extend lattice in
  let '(extended_bases, i) := reduce_loop (nrange 0 100) 0 extended_bases tolerance in
  let out1 := if (i =? 99)%nat then [Line "Delaunary reduction was failed."] else [] in
  let '(shortest, out2) :=
    _get_shortest_bases_from_extented_bases extended_bases tolerance in
  (shortest, out1 ++ out2).

(* ------------------------------------------------------------------ *)
(** ** Shortest periodic vectors *)

(** [np.sqrt(a) - np.sqrt(m) < s] for [0 <= a] and [0 <= m], decided
    without the roots. *)
Definition sqrt_diff_lt (a m s : Q) : bool :=
  if Qle_bool 0 s then
    let t := a - m - s * s in
    Qltb t 0 || Qltb (t * t) (4 * (s * s) * m)
  else
    let u := m - a - s * s in
    Qltb 0 u && Qltb (4 * (s * s) * a) (u * u).

(** The 27 offsets [[i, j, k] for i in (-1, 0, 1) for j ... for k ...]. *)
Definition lattice_points : list vec :=
  flat_map (fun i =>
  flat_map (fun j =>
  map (fun k => V3 i j k) [-1; 0; 1]) [-1; 0; 1]) [-1; 0; 1].

(** [min] of a non-empty array. *)
Definition qmin_list (l : list Q) : Q :=
  match l with
  | [] => 0
  | h :: t => fold_left (fun m x => if Qltb x m then x else m) t h
  end.

(** The squared Cartesian length of a fractional vector. *)
Definition length2 (reduced_bases : mat) (c : vec) : Q :=
  norm2 (vec_mat c reduced_bases).

(** [_get_equivalent_smallest_vectors_simple]. *)
Definition _get_equivalent_smallest_vectors_simple (frac_vector : vec)
    (reduced_bases : mat) (symprec : Q) : list vec :=
  let candidates := map (vadd frac_vector) lattice_points in
  let lengths2 := map (length2 reduced_bases) candidates in
  let min2 := qmin_list lengths2 in
  filter (fun c => sqrt_diff_lt (length2 reduced_bases c) min2 symprec) candidates.

(** The [method] argument of [get_reduced_bases]: a name, or whatever else
    a caller passes in that position. *)
Inductive method_arg : Set :=
| MethodName (s : string)
| MethodNumber (q : Q).

Section ReducedBases.

(** [spg.niggli_reduce] and [spg.delaunay_reduce], of the spglib binding. *)
Variable niggli_reduce : mat -> Q -> mat.
Variable delaunay_reduce : mat -> Q -> mat.

Definition get_reduced_bases (lattice : mat) (method : method_arg) (tolerance : Q)
    : mat :=
  match method with
  | MethodName "niggli" => niggli_reduce lattice tolerance
  | _ => delaunay_reduce lattice tolerance
  end.

(** [get_equivalent_smallest_vectors].  The source hands [symprec] to
    [get_reduced_bases] in the position of [method], so the tolerance of
    the reduction is the default [1e-5]. *)
Definition get_equivalent_smallest_vectors (atom_number_supercell : nat)
    (atom_number_primitive : nat) (supercell : Atoms) (primitive_lattice : mat)
    (symprec : Q) : result (list vec) :=
  lattice <- get_cell supercell ;;
  let reduced_bases := get_reduced_bases lattice (MethodNumber symprec) (1 # 100000) in
  reduced_bases_inv <- inv reduced_bases ;;
  cart_positions <- get_positions supercell ;;
  let reduced_frac_pos i :=
    c <- getitem cart_positions i ;;
    let v := vec_mat c reduced_bases_inv in
    Ok (vsub v (vmap np_rint v)) in
  p_pos <- reduced_frac_pos atom_number_primitive ;;
  s_pos <- reduced_frac_pos atom_number_supercell ;;
  let differences :=
    _get_equivalent_smallest_vectors_simple (vsub s_pos p_pos) reduced_bases symprec in
  primitive_inv <- inv primitive_lattice ;;
  let relative_scale := mat_mul reduced_bases primitive_inv in
  Ok (map (fun d => vec_mat d relative_scale) differences).

End ReducedBases.

(* ------------------------------------------------------------------ *)
(** ** Vocabulary of the properties *)

(** [picked src idx out]: [out] is [[src[i] for i in idx]]. *)
Definition picked {A} (src : list A) (idx : list nat) (out : list A) : Prop :=
  map Some out = map (nth_error src) idx.

(** The same for an optional per-atom array. *)
Definition picked_opt {A} (src : option (list A)) (idx : list nat)
    (out : option (list A)) : Prop :=
  match src, out with
  | None, None => True
  | Some s, Some o => picked s idx o
  | _, _ => False
  end.

(** What holds of the variables of [trim_cell] once the atoms before index
    [i] have been processed; [pnl] is the whole array of folded positions. *)
Record trim_invariant (c : Atoms) (pnl : list vec) (i : nat) (st : trim_state)
    : Prop := {
  inv_sorted : StronglySorted lt (extracted_atoms st);
  inv_below : Forall (fun e => e < i)%nat (extracted_atoms st);
  inv_table_length : length (mapping_table st) = length pnl;
  inv_table_done : forall k, (k < i)%nat ->
      exists m, nth_error (mapping_table st) k = Some m /\
                In m (extracted_atoms st) /\ (m <= k)%nat /\
                (m = k <-> In k (extracted_atoms st));
  inv_table_todo : forall k, (i <= k < length pnl)%nat ->
      nth_error (mapping_table st) k = Some k;
  inv_positions : picked pnl (extracted_atoms st) (trimed_positions st);
  inv_numbers : picked (numbers c) (extracted_atoms st) (trimed_numbers st);
  inv_masses : picked_opt (masses c) (extracted_atoms st) (trimed_masses st);
  inv_magmoms : picked_opt (magmoms c) (extracted_atoms st) (trimed_magmoms st)
}.

(** The number of kept atoms that the folded position [pos] matches. *)
Definition matches (trimed_lattice : mat) (symprec : Q) (st : trim_state)
    (pos : vec) : nat :=
  length (overlap_indices trimed_lattice symprec (trimed_positions st) pos).

(** Three atoms on a line of a unit cube: the third lies within [1e-5] of
    the first two, which are [1.6e-5] apart. *)
Definition three_close : Atoms :=
  mkAtoms [1%Z; 1%Z; 1%Z] None None
          [V3 0 0 0; V3 (16 # 1000000) 0 0; V3 (8 # 1000000) 0 0]
          (Some (cubic 1)) true.

(** A fractional position inside the cell: every component in [[0, 1)]. *)
Definition in_unit_cell (p : vec) : Prop :=
  0 <= vx p < 1 /\ 0 <= vy p < 1 /\ 0 <= vz p < 1.

(** The variables of the loop of [trim_cell] when the first [n] atoms were
    all kept. *)
Definition kept_all (c : Atoms) (pnl : list vec) (n : nat) : trim_state :=
  mkTrim (firstn n pnl) (firstn n (numbers c))
         (option_map (firstn n) (masses c)) (option_map (firstn n) (magmoms c))
         (seq 0 n) (seq 0 (length (scaled_positions c))).

(** Two atoms [7.5e-6] apart in a cubic cell of edge [1/2]: their fractional
    positions differ by [1.5e-5]. *)
Definition close_pair : Atoms :=
  mkAtoms [1%Z; 1%Z] None None
          [V3 0 0 0; V3 (15 # 1000000) 0 0] (Some (cubic (1 # 2))) true.

(** The extended bases after [n] calls of [_reduce_bases]. *)
Fixpoint reduce_passes (n : nat) (extended_bases : list vec) (tolerance : Q)
    : list vec :=
  match n with
  | O => extended_bases
  | S k => reduce_passes k (fst (_reduce_bases extended_bases tolerance)) tolerance
  end.

(** The four extended vectors sum to zero. *)
Definition sum_zero (eb : list vec) : Prop :=
  match eb with
  | [a; b; c; d] => veq (vadd (vadd (vadd a b) c) d) vzero
  | _ => False
  end.

(** The determinant of the first three extended vectors. *)
Definition volume (eb : list vec) : Q :=
  det3 (row vzero eb 0) (row vzero eb 1) (row vzero eb 2).

(** Every off-diagonal entry of the metric of the extended bases is at most
    the tolerance. *)
Definition obtuse (eb : list vec) (tolerance : Q) : Prop :=
  forall i j, (i < j < 4)%nat ->
    vdot (row vzero eb i) (row vzero eb j) <= tolerance.

(** Two lattices met in the properties of the reduction. *)
Definition qmat (a b c d e f g h i : Z) : mat :=
  M3 (V3 (inject_Z a) (inject_Z b) (inject_Z c))
     (V3 (inject_Z d) (inject_Z e) (inject_Z f))
     (V3 (inject_Z g) (inject_Z h) (inject_Z i)).

Definition flat_lattice : mat := qmat 10 3 0 (-10) 3 0 0 (-3) 10.

Definition sheared_lattice : mat := qmat 1 0 0 60 1 0 0 0 1.

(** The seven candidates of [_get_shortest_bases_from_extented_bases] as
    combinations of the first three extended vectors (the fourth is minus
    their sum). *)
Definition candidate_coefficients : list vec :=
  [ V3 1 0 0; V3 0 1 0; V3 0 0 1; V3 (-1) (-1) (-1);
    V3 1 1 0; V3 0 1 1; V3 1 0 1 ].

(** The basis left when every triple of candidates fails the test of
    independence: the three shortest candidates. *)
Definition three_shortest (eb : list vec) : mat :=
  let b := row vzero (sorted_by norm2 (candidate_bases eb)) in
  M3 (b 0%nat) (b 1%nat) (b 2%nat).

(** A list in ascending order of a key. *)
Definition ascending (key : vec -> Q) (l : list vec) : Prop :=
  StronglySorted (fun a b => key a <= key b) l.

(* ================================================================== *)
(** * Properties *)

(** ** Lists and the [result] monad *)

Lemma bind_Ok_inv {A B} (m : result A) (k : A -> result B) (b : B) :
  bind m k = Ok b -> exists a, m = Ok a /\ k a = Ok b.
Proof. destruct m as [a|e]; simpl; [eauto | discriminate]. Qed.

Lemma getitem_Ok {A} (l : list A) i a :
  getitem l i = Ok a <-> nth_error l i = Some a.
Proof.
  unfold getitem. destruct (nth_error l i); split; intros H;
    inversion H; subst; reflexivity.
Qed.

Lemma getitem_lt {A} (l : list A) i :
  (i < length l)%nat -> exists a, getitem l i = Ok a.
Proof.
  intros H. unfold getitem. destruct (nth_error l i) eqn:E; [eauto|].
  apply nth_error_None in E. lia.
Qed.

Lemma setitem_length {A} (l : list A) i v : length (setitem l i v) = length l.
Proof.
  revert i. induction l as [|h t IH]; intros [|i]; simpl; auto.
Qed.

Lemma nth_error_setitem_eq {A} (l : list A) i v :
  (i < length l)%nat -> nth_error (setitem l i v) i = Some v.
Proof.
  revert i. induction l as [|h t IH]; intros [|i] H; simpl in *; try lia; auto.
  apply IH. lia.
Qed.

Lemma nth_error_setitem_neq {A} (l : list A) i j v :
  i <> j -> nth_error (setitem l i v) j = nth_error l j.
Proof.
  revert i j. induction l as [|h t IH]; intros [|i] [|j] H; simpl; auto.
  congruence.
Qed.

Lemma where_from_bound {A} (test : A -> bool) l i k :
  In k (where_from test l i) -> (i <= k < i + length l)%nat.
Proof.
  revert i. induction l as [|a t IH]; simpl; intros i H; [tauto|].
  destruct (test a).
  - destruct H as [<-|H]; [lia|]. apply IH in H. lia.
  - apply IH in H. lia.
Qed.

Lemma where_from_spec {A} (test : A -> bool) l i k :
  In k (where_from test l i) <->
  exists a, nth_error l (k - i) = Some a /\ test a = true /\ (i <= k)%nat.
Proof.
  revert i. induction l as [|a t IH]; simpl; intros i.
  - split; [tauto|]. intros (a & H & _). destruct (k - i)%nat; discriminate.
  - destruct (test a) eqn:Ta; simpl; rewrite ?IH.
    + split.
      * intros [<-|(b & Hb & Tb & Hle)].
        -- exists a. rewrite Nat.sub_diag. auto.
        -- exists b. replace (k - i)%nat with (S (k - S i)) by lia. auto with arith.
      * intros (b & Hb & Tb & Hle).
        destruct (Nat.eq_dec i k) as [->|Hne]; [auto|right].
        exists b. replace (k - i)%nat with (S (k - S i)) in Hb by lia.
        simpl in Hb. split; [auto|split; [auto|lia]].
    + split.
      * intros (b & Hb & Tb & Hle).
        exists b. replace (k - i)%nat with (S (k - S i)) by lia. auto with arith.
      * intros (b & Hb & Tb & Hle).
        destruct (Nat.eq_dec i k) as [->|Hne].
        -- rewrite Nat.sub_diag in Hb. simpl in Hb. congruence.
        -- exists b. replace (k - i)%nat with (S (k - S i)) in Hb by lia.
           simpl in Hb. split; [auto|split; [auto|lia]].
Qed.

Lemma where_from_nil {A} (test : A -> bool) l i :
  where_from test l i = [] <-> forall a, In a l -> test a = false.
Proof.
  revert i. induction l as [|a t IH]; simpl; intros i.
  - split; [intros _ ? []|reflexivity].
  - destruct (test a) eqn:Ta.
    + split; [discriminate|]. intros H. specialize (H a (or_introl eq_refl)). congruence.
    + rewrite IH. split.
      * intros H b [<-|Hb]; auto.
      * intros H b Hb. apply H. auto.
Qed.

Lemma enumerate_from_app {A} (l1 l2 : list A) i :
  enumerate_from i (l1 ++ l2) =
  enumerate_from i l1 ++ enumerate_from (i + length l1) l2.
Proof.
  revert i. induction l1 as [|a t IH]; simpl; intros i.
  - f_equal. lia.
  - rewrite IH. do 3 f_equal. lia.
Qed.

Lemma StronglySorted_snoc (l : list nat) x :
  StronglySorted lt l -> Forall (fun y => y < x)%nat l -> StronglySorted lt (l ++ [x]).
Proof.
  induction 1 as [|a l Hs IH Ha]; intros Hx; simpl.
  - repeat constructor.
  - inversion Hx; subst. constructor; [auto|].
    apply Forall_app. split; [assumption|]. constructor; auto.
Qed.

(** ** The loop of [trim_cell] *)

Lemma picked_length {A} (src : list A) idx out :
  picked src idx out -> length out = length idx.
Proof.
  unfold picked. intros H. apply (f_equal (@length _)) in H.
  now rewrite !length_map in H.
Qed.

Lemma picked_snoc {A} (src : list A) idx out i a :
  picked src idx out -> nth_error src i = Some a ->
  picked src (idx ++ [i]) (out ++ [a]).
Proof.
  unfold picked. intros H Hi. rewrite !map_app, H. simpl. now rewrite Hi.
Qed.

Lemma picked_opt_snoc (src : option (list Q)) idx out i x :
  picked_opt src idx out -> optional_item src i = Ok x ->
  picked_opt src (idx ++ [i]) (optional_append out x).
Proof.
  unfold picked_opt, optional_item. destruct src as [s|], out as [o|]; simpl; try tauto.
  intros H Hx. apply bind_Ok_inv in Hx. destruct Hx as (a & Ha & Hx).
  inversion Hx; subst. apply getitem_Ok in Ha. now apply picked_snoc.
Qed.

Lemma trim_init_invariant c pnl :
  length pnl = length (scaled_positions c) ->
  trim_invariant c pnl 0 (trim_init c).
Proof.
  intros Hlen. constructor; simpl.
  - constructor.
  - constructor.
  - now rewrite length_seq.
  - intros k Hk. lia.
  - intros k Hk. rewrite nth_error_nth' with (d := 0%nat) by (rewrite length_seq; lia).
    rewrite seq_nth by lia. reflexivity.
  - reflexivity.
  - reflexivity.
  - unfold picked_opt. destruct (masses c); [reflexivity|exact I].
  - unfold picked_opt. destruct (magmoms c); [reflexivity|exact I].
Qed.

(** The two ways in which one pass of the loop ends without an exception. *)
Lemma trim_step_Ok L s c st i pos st' :
  trim_step L s c st i pos = Ok st' ->
  (exists k e, overlap_indices L s (trimed_positions st) pos = [k] /\
               nth_error (extracted_atoms st) k = Some e /\
               st' = mkTrim (trimed_positions st) (trimed_numbers st)
                            (trimed_masses st) (trimed_magmoms st)
                            (extracted_atoms st) (setitem (mapping_table st) i e))
  \/
  (overlap_indices L s (trimed_positions st) pos = [] /\
   exists n m g, nth_error (numbers c) i = Some n /\
                 optional_item (masses c) i = Ok m /\
                 optional_item (magmoms c) i = Ok g /\
                 st' = mkTrim (trimed_positions st ++ [pos]) (trimed_numbers st ++ [n])
                              (optional_append (trimed_masses st) m)
                              (optional_append (trimed_magmoms st) g)
                              (extracted_atoms st ++ [i]) (mapping_table st)).
Proof.
  unfold trim_step. intros H. apply bind_Ok_inv in H. destruct H as (ov & Hov & H).
  assert (Hcases :
    (exists k e, overlap_indices L s (trimed_positions st) pos = [k] /\
                 nth_error (extracted_atoms st) k = Some e /\ ov = Some e) \/
    (overlap_indices L s (trimed_positions st) pos = [] /\ ov = None)).
  { destruct (0 <? num_atom st)%nat eqn:Hn.
    - destruct (overlap_indices L s (trimed_positions st) pos) as [|k [|k' r]] eqn:Hidx;
        simpl in Hov.
      + right. inversion Hov. auto.
      + left. apply bind_Ok_inv in Hov. destruct Hov as (e & He & Hov).
        apply getitem_Ok in He. inversion Hov. eauto.
      + discriminate.
    - right. inversion Hov; subst. split; [|reflexivity].
      apply Nat.ltb_ge in Hn. unfold num_atom in Hn.
      destruct (trimed_positions st); [reflexivity|simpl in Hn; lia]. }
  destruct Hcases as [(k & e & Hidx & He & ->)|(Hidx & ->)].
  - left. exists k, e. inversion H. auto.
  - right. split; [assumption|].
    apply bind_Ok_inv in H. destruct H as (n & Hn & H).
    apply bind_Ok_inv in H. destruct H as (m & Hm & H).
    apply bind_Ok_inv in H. destruct H as (g & Hg & H).
    apply getitem_Ok in Hn. inversion H. exists n, m, g. auto.
Qed.

Lemma trim_step_invariant L s c pnl st i pos st' :
  nth_error pnl i = Some pos ->
  trim_invariant c pnl i st ->
  trim_step L s c st i pos = Ok st' ->
  trim_invariant c pnl (S i) st'.
Proof.
  intros Hpos Inv Hstep.
  assert (Hi : (i < length pnl)%nat) by (apply nth_error_Some; congruence).
  destruct Inv as [Hso Hbe Hlen Hdone Htodo Hp Hn Hm Hg].
  apply trim_step_Ok in Hstep.
  destruct Hstep as [(k & e & Hidx & He & ->)|(Hidx & n & m & g & Hn' & Hm' & Hg' & ->)].
  - assert (Hein : In e (extracted_atoms st)) by (eapply nth_error_In; eauto).
    assert (Hei : (e < i)%nat) by (rewrite Forall_forall in Hbe; auto).
    constructor; simpl; auto.
    + eapply Forall_impl; [|exact Hbe]. simpl. intros; lia.
    + now rewrite setitem_length.
    + intros k' Hk'. destruct (Nat.eq_dec k' i) as [->|Hne].
      * exists e. rewrite nth_error_setitem_eq by lia.
        repeat split; auto; try lia.
        intros Hin. rewrite Forall_forall in Hbe. apply Hbe in Hin. lia.
      * rewrite nth_error_setitem_neq by auto. apply Hdone. lia.
    + intros k' Hk'. rewrite nth_error_setitem_neq by lia. apply Htodo. lia.
  - constructor; simpl.
    + apply StronglySorted_snoc; assumption.
    + apply Forall_app. split.
      * eapply Forall_impl; [|exact Hbe]. simpl. intros; lia.
      * constructor; [lia|constructor].
    + assumption.
    + intros k' Hk'. destruct (Nat.eq_dec k' i) as [->|Hne].
      * exists i. rewrite Htodo by lia.
        assert (Hin : In i (extracted_atoms st ++ [i]))
          by (apply in_or_app; right; left; reflexivity).
        repeat split; auto.
      * destruct (Hdone k') as (m' & Hm1 & Hm2 & Hm3 & Hm4); [lia|].
        exists m'. repeat split; auto.
        -- apply in_or_app. auto.
        -- intros ->. apply in_or_app. left. now apply Hm4.
        -- intros Hin. apply in_app_or in Hin. destruct Hin as [Hin|[Hin|[]]].
           ++ now apply Hm4.
           ++ lia.
    + intros k' Hk'. apply Htodo. lia.
    + now apply picked_snoc.
    + now apply picked_snoc.
    + now apply picked_opt_snoc.
    + now apply picked_opt_snoc.
Qed.

Lemma trim_loop_invariant_prefix L s c pnl : forall rest pre post st st',
  pnl = pre ++ rest ++ post ->
  trim_invariant c pnl (length pre) st ->
  trim_loop L s c (enumerate_from (length pre) rest) st = Ok st' ->
  trim_invariant c pnl (length pre + length rest) st'.
Proof.
  induction rest as [|pos rest IH]; intros pre post st st' Hpnl Inv Hloop.
  - simpl in Hloop. inversion Hloop; subst st'. simpl. now rewrite Nat.add_0_r.
  - simpl in Hloop. apply bind_Ok_inv in Hloop. destruct Hloop as (st1 & Hstep & Hloop).
    replace (length pre + length (pos :: rest))%nat
      with (length (pre ++ [pos]) + length rest)%nat
      by (rewrite length_app; simpl; lia).
    apply (IH (pre ++ [pos]) post st1 st').
    + rewrite Hpnl, <- app_assoc. reflexivity.
    + rewrite length_app. simpl. rewrite Nat.add_1_r.
      eapply trim_step_invariant; eauto.
      rewrite Hpnl, nth_error_app2, Nat.sub_diag by lia. reflexivity.
    + rewrite length_app. simpl. now rewrite Nat.add_1_r.
Qed.

Lemma trim_loop_invariant L s c pnl : forall rest pre st st',
  pnl = pre ++ rest ->
  trim_invariant c pnl (length pre) st ->
  trim_loop L s c (enumerate_from (length pre) rest) st = Ok st' ->
  trim_invariant c pnl (length pnl) st'.
Proof.
  intros rest pre st st' Hpnl Inv Hloop.
  replace (length pnl) with (length pre + length rest)%nat
    by (rewrite Hpnl, length_app; reflexivity).
  eapply trim_loop_invariant_prefix with (post := []); eauto.
  now rewrite app_nil_r.
Qed.

(** The parts of a call of [trim_cell] that returns. *)
Lemma trim_cell_Ok axes c s t ex mt :
  trim_cell axes c s = Ok (t, ex, mt) ->
  exists lattice inv_axes st,
    cell c = Some lattice /\ inv axes = Ok inv_axes /\
    trim_loop (mat_mul (transpose axes) lattice) s c
      (enumerate (positions_in_new_lattice inv_axes (scaled_positions c)))
      (trim_init c) = Ok st /\
    t = mkAtoms (trimed_numbers st) (trimed_masses st) (trimed_magmoms st)
                (trimed_positions st) (Some (mat_mul (transpose axes) lattice)) true /\
    ex = extracted_atoms st /\ mt = mapping_table st.
Proof.
  unfold trim_cell, get_cell. intros H.
  destruct (cell c) as [lattice|]; [|discriminate]. simpl in H.
  apply bind_Ok_inv in H. destruct H as (ia & Hia & H).
  apply bind_Ok_inv in H. destruct H as (st & Hst & H).
  inversion H; subst. exists lattice, ia, st. auto 10.
Qed.

Lemma positions_in_new_lattice_length ia ps :
  length (positions_in_new_lattice ia ps) = length ps.
Proof. unfold positions_in_new_lattice. apply length_map. Qed.

Lemma trim_cell_invariant axes c s t ex mt :
  trim_cell axes c s = Ok (t, ex, mt) ->
  exists inv_axes st,
    inv axes = Ok inv_axes /\
    trim_invariant c (positions_in_new_lattice inv_axes (scaled_positions c))
                   (length (scaled_positions c)) st /\
    numbers t = trimed_numbers st /\ masses t = trimed_masses st /\
    magmoms t = trimed_magmoms st /\ scaled_positions t = trimed_positions st /\
    ex = extracted_atoms st /\ mt = mapping_table st.
Proof.
  intros H. apply trim_cell_Ok in H.
  destruct H as (lattice & ia & st & Hc & Hia & Hloop & -> & -> & ->).
  exists ia, st. split; [assumption|]. split; [|simpl; auto 10].
  rewrite <- (positions_in_new_lattice_length ia (scaled_positions c)).
  eapply (trim_loop_invariant _ _ _ _ _ []); [reflexivity| |exact Hloop].
  apply trim_init_invariant, positions_in_new_lattice_length.
Qed.

Lemma trim_loop_app L s c : forall l1 l2 i st,
  trim_loop L s c (enumerate_from i (l1 ++ l2)) st =
  (st' <- trim_loop L s c (enumerate_from i l1) st ;;
   trim_loop L s c (enumerate_from (i + length l1) l2) st').
Proof.
  induction l1 as [|a l1 IH]; intros l2 i st; simpl.
  - now rewrite Nat.add_0_r.
  - destruct (trim_step L s c st i a) as [st1|e]; simpl; [|reflexivity].
    rewrite IH. now rewrite Nat.add_succ_r.
Qed.

(** The state in which the loop reaches an atom, as a run over the atoms
    before it. *)
Lemma trim_prefix_invariant L s c pnl pre post st :
  length pnl = length (scaled_positions c) ->
  pnl = pre ++ post ->
  trim_loop L s c (enumerate pre) (trim_init c) = Ok st ->
  trim_invariant c pnl (length pre) st.
Proof.
  intros Hlen Hpnl Hloop.
  change (length pre) with (length (@nil vec) + length pre)%nat.
  eapply trim_loop_invariant_prefix with (pre := []) (rest := pre) (post := post).
  - exact Hpnl.
  - now apply trim_init_invariant.
  - exact Hloop.
Qed.

Lemma trim_step_ambiguous L s c st i pos :
  (1 < matches L s st pos)%nat ->
  trim_step L s c st i pos = Raise AssertionError.
Proof.
  unfold matches, trim_step. intros H.
  assert (Hn : (0 <? num_atom st)%nat = true).
  { apply Nat.ltb_lt. unfold num_atom.
    destruct (trimed_positions st); [simpl in H; lia|simpl; lia]. }
  rewrite Hn.
  destruct (overlap_indices L s (trimed_positions st) pos) as [|k [|k' r]];
    simpl in *; try lia. reflexivity.
Qed.

Lemma getitem_not_assertion {A} (l : list A) i :
  getitem l i <> Raise AssertionError.
Proof. unfold getitem. destruct (nth_error l i); discriminate. Qed.

Lemma optional_item_not_assertion o i :
  optional_item o i <> Raise AssertionError.
Proof.
  unfold optional_item. destruct o as [l|]; [|discriminate].
  unfold getitem. destruct (nth_error l i); discriminate.
Qed.

Lemma trim_step_unambiguous L s c st i pos :
  (matches L s st pos <= 1)%nat ->
  trim_step L s c st i pos <> Raise AssertionError.
Proof.
  unfold matches, trim_step. intros H.
  assert (Hkeep :
    forall r, (n <- getitem (numbers c) i ;;
               m <- optional_item (masses c) i ;;
               g <- optional_item (magmoms c) i ;;
               Ok (r n m g)) <> (Raise AssertionError : result trim_state)).
  { intros r. pose proof (getitem_not_assertion (numbers c) i) as N1.
    pose proof (optional_item_not_assertion (masses c) i) as N2.
    pose proof (optional_item_not_assertion (magmoms c) i) as N3.
    destruct (getitem (numbers c) i) as [n|e]; simpl; [|congruence].
    destruct (optional_item (masses c) i) as [m|e]; simpl; [|congruence].
    destruct (optional_item (magmoms c) i) as [g|e]; simpl; [|congruence].
    discriminate. }
  destruct (0 <? num_atom st)%nat; simpl; [|apply Hkeep].
  destruct (overlap_indices L s (trimed_positions st) pos) as [|k [|k' r]];
    simpl in *; try lia.
  - apply Hkeep.
  - pose proof (getitem_not_assertion (extracted_atoms st) k) as N1.
    destruct (getitem (extracted_atoms st) k) as [e|e]; simpl; [discriminate|congruence].
Qed.

Lemma trim_step_total L s c pnl st i pos :
  well_formed c -> length pnl = length (scaled_positions c) ->
  nth_error pnl i = Some pos ->
  trim_invariant c pnl i st ->
  (matches L s st pos <= 1)%nat ->
  exists st', trim_step L s c st i pos = Ok st'.
Proof.
  intros (Wn & Wm & Wg) Hlen Hpos Inv H.
  assert (Hi : (i < length pnl)%nat) by (apply nth_error_Some; congruence).
  assert (Hkeep :
    forall r, exists st', (n <- getitem (numbers c) i ;;
               m <- optional_item (masses c) i ;;
               g <- optional_item (magmoms c) i ;;
               Ok (r n m g)) = (Ok st' : result trim_state)).
  { intros r. destruct (getitem_lt (numbers c) i) as (n & ->); [lia|]. simpl.
    assert (Hopt : forall o, (forall l, o = Some l -> length l = length (scaled_positions c)) ->
                             exists x, optional_item o i = Ok x).
    { intros [l|] Hl; simpl; [|eauto].
      destruct (getitem_lt l i) as (x & ->); [rewrite (Hl l eq_refl); lia|]. simpl. eauto. }
    destruct (Hopt _ Wm) as (m & ->). destruct (Hopt _ Wg) as (g & ->). simpl. eauto. }
  unfold matches in H. unfold trim_step.
  destruct (0 <? num_atom st)%nat; simpl; [|apply Hkeep].
  destruct (overlap_indices L s (trimed_positions st) pos) as [|k [|k' r]] eqn:Hidx;
    simpl in *; try lia.
  - apply Hkeep.
  - assert (Hk : In k (overlap_indices L s (trimed_positions st) pos))
      by (rewrite Hidx; left; reflexivity).
    apply where_from_bound in Hk.
    rewrite (picked_length _ _ _ (inv_positions _ _ _ _ Inv)) in Hk.
    destruct (getitem_lt (extracted_atoms st) k) as (e & ->); [lia|]. simpl. eauto.
Qed.

Section TrimAmbiguity.

Variables (relative_axes : mat) (c : Atoms) (symprec : Q) (lattice inv_axes : mat).
Hypothesis Hcell : cell c = Some lattice.
Hypothesis Hinv : inv relative_axes = Ok inv_axes.

Let L := mat_mul (transpose relative_axes) lattice.
Let pnl := positions_in_new_lattice inv_axes (scaled_positions c).

Lemma trim_cell_unfold :
  trim_cell relative_axes c symprec =
  (st <- trim_loop L symprec c (enumerate pnl) (trim_init c) ;;
   Ok (mkAtoms (trimed_numbers st) (trimed_masses st) (trimed_magmoms st)
               (trimed_positions st) (Some L) true,
       extracted_atoms st, mapping_table st)).
Proof. unfold trim_cell, get_cell. rewrite Hcell. simpl. rewrite Hinv. reflexivity. Qed.

Lemma trim_reaches_snoc pre pos st st1 :
  trim_loop L symprec c (enumerate pre) (trim_init c) = Ok st ->
  trim_step L symprec c st (length pre) pos = Ok st1 ->
  trim_loop L symprec c (enumerate (pre ++ [pos])) (trim_init c) = Ok st1.
Proof.
  intros Hr Hs. unfold enumerate in *. rewrite trim_loop_app, Hr. simpl.
  now rewrite Hs.
Qed.

Hypothesis unambiguous : forall pre pos post st,
  pnl = pre ++ pos :: post ->
  trim_loop L symprec c (enumerate pre) (trim_init c) = Ok st ->
  (matches L symprec st pos <= 1)%nat.

Lemma trim_loop_no_assertion : forall rest pre st,
  pnl = pre ++ rest ->
  trim_loop L symprec c (enumerate pre) (trim_init c) = Ok st ->
  trim_loop L symprec c (enumerate_from (length pre) rest) st <> Raise AssertionError.
Proof.
  induction rest as [|pos rest IH]; intros pre st Hpnl Hr; simpl; [discriminate|].
  pose proof (trim_step_unambiguous L symprec c st (length pre) pos
                (unambiguous pre pos rest st Hpnl Hr)) as Hne.
  destruct (trim_step L symprec c st (length pre) pos) as [st1|e] eqn:Hs; simpl;
    [|congruence].
  specialize (IH (pre ++ [pos]) st1).
  rewrite length_app, Nat.add_1_r in IH. apply IH.
  - now rewrite <- app_assoc.
  - eapply trim_reaches_snoc; eauto.
Qed.

Lemma trim_loop_total : well_formed c -> forall rest pre st,
  pnl = pre ++ rest ->
  trim_loop L symprec c (enumerate pre) (trim_init c) = Ok st ->
  exists st', trim_loop L symprec c (enumerate_from (length pre) rest) st = Ok st'.
Proof.
  intros W. induction rest as [|pos rest IH]; intros pre st Hpnl Hr; simpl; [eauto|].
  assert (Hlen : length pnl = length (scaled_positions c))
    by apply positions_in_new_lattice_length.
  destruct (trim_step_total L symprec c pnl st (length pre) pos W Hlen) as (st1 & Hs).
  - rewrite Hpnl, nth_error_app2, Nat.sub_diag by lia. reflexivity.
  - eapply trim_prefix_invariant; eauto.
  - eapply unambiguous; eauto.
  - rewrite Hs. simpl. specialize (IH (pre ++ [pos]) st1).
    rewrite length_app, Nat.add_1_r in IH. apply IH.
    + now rewrite <- app_assoc.
    + eapply trim_reaches_snoc; eauto.
Qed.

End TrimAmbiguity.

(** C7. In [trim_cell], when the loop reaches an atom whose folded position
    matches more than one kept atom within the tolerance, the call raises the
    assertion error; when every atom the loop reaches matches at most one kept
    atom, the call does not raise it (and returns, for a well-formed cell). *)
Theorem trim_cell_ambiguity :
  forall (relative_axes : mat) (c : Atoms) (symprec : Q) (lattice inv_axes : mat),
    cell c = Some lattice ->
    inv relative_axes = Ok inv_axes ->
    let L := mat_mul (transpose relative_axes) lattice in
    let pnl := positions_in_new_lattice inv_axes (scaled_positions c) in
    let reaches pre st :=
      trim_loop L symprec c (enumerate pre) (trim_init c) = Ok st in
    (forall pre pos post st,
        pnl = pre ++ pos :: post -> reaches pre st ->
        (1 < matches L symprec st pos)%nat ->
        trim_cell relative_axes c symprec = Raise AssertionError) /\
    ((forall pre pos post st,
        pnl = pre ++ pos :: post -> reaches pre st ->
        (matches L symprec st pos <= 1)%nat) ->
     trim_cell relative_axes c symprec <> Raise AssertionError /\
     (well_formed c -> exists r, trim_cell relative_axes c symprec = Ok r)).
Proof.
  intros axes c s lattice ia Hcell Hinv L pnl reaches. split.
  - intros pre pos post st Hpnl Hr Hm.
    rewrite (trim_cell_unfold axes c s lattice ia Hcell Hinv).
    fold L. fold pnl. rewrite Hpnl. unfold enumerate.
    rewrite trim_loop_app. unfold reaches, enumerate in Hr. rewrite Hr. simpl.
    rewrite trim_step_ambiguous by exact Hm. reflexivity.
  - intros Hu. rewrite (trim_cell_unfold axes c s lattice ia Hcell Hinv).
    fold L. fold pnl. split.
    + pose proof (trim_loop_no_assertion axes c s lattice ia Hu pnl [] (trim_init c)
                    eq_refl eq_refl) as Hne.
      simpl in Hne. unfold enumerate.
      destruct (trim_loop _ _ _ (enumerate_from 0 pnl) _) as [st|e]; simpl;
        [discriminate|congruence].
    + intros W.
      destruct (trim_loop_total axes c s lattice ia Hu W pnl [] (trim_init c)
                  eq_refl eq_refl) as (st & Hst).
      simpl in Hst. unfold enumerate. fold L in Hst. fold pnl in Hst.
      rewrite Hst. simpl. eauto.
Qed.

Lemma trim_cell_ambiguity_witness :
  trim_cell identity three_close (1 # 100000) = Raise AssertionError.
Proof.
  assert (Hinv : exists ia, inv identity = Ok ia) by (eexists; vm_compute; reflexivity).
  destruct Hinv as (ia & Hinv).
  destruct (trim_cell_ambiguity identity three_close (1 # 100000) (cubic 1) ia
              eq_refl Hinv) as (Hraise & _).
  assert (Hst : exists st,
    trim_loop (mat_mul (transpose identity) (cubic 1)) (1 # 100000) three_close
      (enumerate (firstn 2 (positions_in_new_lattice ia (scaled_positions three_close))))
      (trim_init three_close) = Ok st /\
    (1 < matches (mat_mul (transpose identity) (cubic 1)) (1 # 100000) st
           (nth 2 (positions_in_new_lattice ia (scaled_positions three_close)) vzero))%nat).
  { inversion Hinv; subst ia. eexists. split; [vm_compute; reflexivity|].
    vm_compute. reflexivity. }
  destruct Hst as (st & Hst & Hm).
  eapply Hraise with (post := []); [|exact Hst|exact Hm].
  reflexivity.
Defined.

(** C10. Whenever [trim_cell] returns [(trimed_cell, extracted_atoms,
    mapping_table)]: [extracted_atoms] is strictly increasing; [mapping_table]
    has one entry per input atom; every entry [mapping_table[i]] is an element
    of [extracted_atoms], is at most [i], and is [i] exactly when [i] is in
    [extracted_atoms]; the trimmed cell has as many atoms as [extracted_atoms]
    has entries, and its species, masses and magnetic moments are those of the
    input atoms [extracted_atoms] names, in that order. *)
Theorem trim_cell_result_invariants :
  forall (relative_axes : mat) (c : Atoms) (symprec : Q)
         (trimed_cell : Atoms) (extracted mapping : list nat),
    trim_cell relative_axes c symprec = Ok (trimed_cell, extracted, mapping) ->
    StronglySorted lt extracted /\
    length mapping = get_number_of_atoms c /\
    (forall i, (i < get_number_of_atoms c)%nat ->
       exists m, nth_error mapping i = Some m /\ In m extracted /\ (m <= i)%nat /\
                 (m = i <-> In i extracted)) /\
    get_number_of_atoms trimed_cell = length extracted /\
    picked (numbers c) extracted (numbers trimed_cell) /\
    picked_opt (masses c) extracted (masses trimed_cell) /\
    picked_opt (magmoms c) extracted (magmoms trimed_cell).
Proof.
  intros axes c s t ex mt H.
  apply trim_cell_invariant in H.
  destruct H as (ia & st & _ & Inv & Hn & Hm & Hg & Hp & -> & ->).
  destruct Inv as [Hso Hbe Hlen Hdone Htodo Hpos Hnum Hmas Hmag].
  unfold get_number_of_atoms. rewrite Hn, Hm, Hg, Hp.
  rewrite positions_in_new_lattice_length in Hlen.
  repeat split; auto.
  eapply picked_length; eauto.
Qed.

Lemma trim_cell_result_invariants_witness :
  exists t ex mt,
    trim_cell half_x two_atoms (1 # 100000) = Ok (t, ex, mt) /\
    StronglySorted lt ex /\ length mt = 2%nat /\ get_number_of_atoms t = length ex.
Proof.
  assert (H : exists r, trim_cell half_x two_atoms (1 # 100000) = Ok r).
  { eexists. vm_compute. reflexivity. }
  destruct H as ([[t ex] mt] & H).
  exists t, ex, mt. split; [exact H|].
  destruct (trim_cell_result_invariants _ _ _ _ _ _ H) as (H1 & H2 & _ & H4 & _).
  repeat split; assumption.
Defined.

(** ** Rational arithmetic of the model *)

Lemma Qltb_lt x y : Qltb x y = true <-> x < y.
Proof.
  unfold Qltb. rewrite negb_true_iff. split.
  - intros H. apply Qnot_le_lt. intros Hle. apply Qle_bool_iff in Hle. congruence.
  - intros H. destruct (Qle_bool y x) eqn:E; [|reflexivity].
    apply Qle_bool_iff in E. exfalso. apply (Qlt_not_le _ _ H E).
Qed.

Lemma Qltb_ge x y : Qltb x y = false <-> y <= x.
Proof.
  unfold Qltb. rewrite negb_false_iff. apply Qle_bool_iff.
Qed.

Lemma Qltb_comp x x' y y' : x == x' -> y == y' -> Qltb x y = Qltb x' y'.
Proof.
  intros Hx Hy. destruct (Qltb x' y') eqn:E.
  - apply Qltb_lt. apply Qltb_lt in E. now rewrite Hx, Hy.
  - apply Qltb_ge. apply Qltb_ge in E. now rewrite Hx, Hy.
Qed.

Lemma np_rint_comp x y : x == y -> np_rint x = np_rint y.
Proof.
  intros H. unfold np_rint. rewrite (Qfloor_comp _ _ H).
  assert (Hc : (x - inject_Z (Qfloor y) ?= 1 # 2) = (y - inject_Z (Qfloor y) ?= 1 # 2))
    by now rewrite H.
  now rewrite Hc.
Qed.

Lemma sqrt_lt_comp a a' s : a == a' -> sqrt_lt a s = sqrt_lt a' s.
Proof.
  intros H. unfold sqrt_lt. f_equal. apply Qltb_comp; [exact H|reflexivity].
Qed.

Lemma Qfloor_unit x : 0 <= x -> x < 1 -> Qfloor x = 0%Z.
Proof.
  intros H0 H1.
  pose proof (Qfloor_le x) as Hl. pose proof (Qlt_floor x) as Hu.
  assert (A : inject_Z (Qfloor x) < inject_Z 1) by (eapply Qle_lt_trans; eauto).
  assert (B : inject_Z 0 < inject_Z (Qfloor x + 1)) by (eapply Qle_lt_trans; eauto).
  rewrite <- Zlt_Qlt in A, B. lia.
Qed.

Lemma veq_refl a : veq a a.
Proof. unfold veq. repeat split; reflexivity. Qed.

Lemma veq_sym a b : veq a b -> veq b a.
Proof. unfold veq. intros (H1 & H2 & H3). repeat split; now symmetry. Qed.

Lemma veq_trans a b c : veq a b -> veq b c -> veq a c.
Proof.
  unfold veq. intros (H1 & H2 & H3) (K1 & K2 & K3).
  repeat split; etransitivity; eauto.
Qed.

Lemma vdot_comp a a' b b' : veq a a' -> veq b b' -> vdot a b == vdot a' b'.
Proof.
  unfold veq, vdot. intros (H1 & H2 & H3) (K1 & K2 & K3).
  now rewrite H1, H2, H3, K1, K2, K3.
Qed.

Lemma vec_mat_comp v v' m m' : veq v v' -> meq m m' -> veq (vec_mat v m) (vec_mat v' m').
Proof.
  intros Hv ((A1 & A2 & A3) & (B1 & B2 & B3) & (C1 & C2 & C3)).
  unfold vec_mat, veq; simpl.
  repeat split; apply vdot_comp; auto; unfold veq; simpl; auto.
Qed.

Lemma vsub_comp a a' b b' : veq a a' -> veq b b' -> veq (vsub a b) (vsub a' b').
Proof.
  unfold veq, vsub. intros (H1 & H2 & H3) (K1 & K2 & K3). simpl.
  now rewrite H1, H2, H3, K1, K2, K3.
Qed.

Lemma vmap_rint_comp a a' : veq a a' -> vmap np_rint a = vmap np_rint a'.
Proof.
  unfold veq, vmap. intros (H1 & H2 & H3).
  now rewrite (np_rint_comp _ _ H1), (np_rint_comp _ _ H2), (np_rint_comp _ _ H3).
Qed.

(** The overlap test of [trim_cell] only depends on the numbers. *)
Lemma overlaps_comp L L' s p p' k k' :
  meq L L' -> veq p p' -> veq k k' ->
  overlaps L s p k = overlaps L' s p' k'.
Proof.
  intros HL Hp Hk. unfold overlaps.
  assert (Hd : veq (vsub k p) (vsub k' p')) by now apply vsub_comp.
  rewrite (vmap_rint_comp _ _ Hd).
  apply sqrt_lt_comp. unfold norm2. apply vdot_comp; apply vec_mat_comp; auto;
    apply vsub_comp; auto; apply veq_refl.
Qed.

Lemma inv_identity : exists ia, inv identity = Ok ia /\ meq ia identity.
Proof.
  eexists. split; [vm_compute; reflexivity|].
  unfold meq, veq; simpl. repeat split; reflexivity.
Qed.

Lemma vec_mat_transpose_identity p ia :
  meq ia identity -> veq (vec_mat p (transpose ia)) p.
Proof.
  intros ((A1 & A2 & A3) & (B1 & B2 & B3) & (C1 & C2 & C3)).
  simpl in *. unfold vec_mat, veq, vdot; simpl.
  rewrite A1, A2, A3, B1, B2, B3, C1, C2, C3. repeat split; ring.
Qed.

Lemma mat_mul_transpose_identity L : meq (mat_mul (transpose identity) L) L.
Proof.
  unfold meq, veq, mat_mul, vec_mat, vdot; simpl. repeat split; ring.
Qed.

Lemma fold_in_unit_cell q p :
  veq q p -> in_unit_cell p -> veq (vsub q (vmap np_floor q)) p.
Proof.
  intros (H1 & H2 & H3) ((X0 & X1) & (Y0 & Y1) & (Z0 & Z1)).
  unfold veq, vsub, vmap, np_floor; simpl.
  rewrite (Qfloor_comp _ _ H1), (Qfloor_comp _ _ H2), (Qfloor_comp _ _ H3).
  rewrite !Qfloor_unit by assumption. rewrite H1, H2, H3.
  repeat split; unfold inject_Z; ring.
Qed.

(** ** [trim_cell] with the identity axes *)

Section AllKept.

Variables (L : mat) (symprec : Q) (c : Atoms) (pnl : list vec).
Hypothesis W : well_formed c.
Hypothesis Hlen : length pnl = length (scaled_positions c).
Hypothesis apart : forall i j pi pj,
  (i < j)%nat -> nth_error pnl i = Some pi -> nth_error pnl j = Some pj ->
  overlaps L symprec pj pi = false.

Lemma firstn_snoc {A} (l : list A) n a :
  nth_error l n = Some a -> firstn (S n) l = firstn n l ++ [a].
Proof.
  revert n. induction l as [|h t IH]; intros [|n] H; simpl in *; try discriminate.
  - inversion H. reflexivity.
  - f_equal. now apply IH.
Qed.

Lemma optional_kept (o : option (list Q)) n :
  (forall l, o = Some l -> length l = length (scaled_positions c)) ->
  (n < length (scaled_positions c))%nat ->
  exists x, optional_item o n = Ok x /\
            optional_append (option_map (firstn n) o) x = option_map (firstn (S n)) o.
Proof.
  intros Hl Hn. destruct o as [l|].
  - destruct (nth_error l n) as [a|] eqn:E.
    + exists (Some a). unfold optional_item, getitem. rewrite E.
      split; [reflexivity|].
      unfold optional_append, option_map. now rewrite (firstn_snoc _ _ _ E).
    + apply nth_error_None in E. rewrite (Hl l eq_refl) in E. lia.
  - exists None. auto.
Qed.

Lemma trim_step_kept n pos :
  nth_error pnl n = Some pos ->
  trim_step L symprec c (kept_all c pnl n) n pos = Ok (kept_all c pnl (S n)).
Proof.
  intros Hpos. destruct W as (Wn & Wm & Wg).
  assert (Hn : (n < length pnl)%nat) by (apply nth_error_Some; congruence).
  assert (Hidx : overlap_indices L symprec (firstn n pnl) pos = []).
  { apply where_from_nil. intros a Ha.
    apply In_nth_error in Ha. destruct Ha as (k & Hk).
    assert (Hkn : (k < n)%nat).
    { assert (k < length (firstn n pnl))%nat by (apply nth_error_Some; congruence).
      rewrite length_firstn in H. lia. }
    rewrite nth_error_firstn in Hk.
    destruct (k <? n)%nat eqn:E; [|discriminate].
    eapply apart; eauto. }
  unfold trim_step. simpl trimed_positions. rewrite Hidx.
  replace (if (0 <? num_atom (kept_all c pnl n))%nat
           then if (0 <? length (@nil nat))%nat
                then if (length (@nil nat) =? 1)%nat
                     then k <- getitem [] 0%nat ;;
                          e <- getitem (extracted_atoms (kept_all c pnl n)) k ;; Ok (Some e)
                     else Raise AssertionError
                else Ok None
           else Ok None) with (Ok (@None nat))
    by (destruct (0 <? num_atom (kept_all c pnl n))%nat; reflexivity).
  simpl.
  destruct (nth_error (numbers c) n) as [x|] eqn:Ex.
  2:{ apply nth_error_None in Ex. lia. }
  unfold getitem. rewrite Ex. simpl.
  destruct (optional_kept (masses c) n Wm) as (m & Hm1 & Hm2); [lia|].
  destruct (optional_kept (magmoms c) n Wg) as (g & Hg1 & Hg2); [lia|].
  rewrite Hm1, Hg1. simpl. unfold kept_all.
  rewrite Hm2, Hg2, (firstn_snoc _ _ _ Hpos), (firstn_snoc _ _ _ Ex), seq_S. reflexivity.
Qed.

Lemma trim_loop_kept : forall rest pre,
  pnl = pre ++ rest ->
  trim_loop L symprec c (enumerate_from (length pre) rest) (kept_all c pnl (length pre))
  = Ok (kept_all c pnl (length pnl)).
Proof.
  induction rest as [|pos rest IH]; intros pre Hpnl; simpl.
  - rewrite Hpnl, app_nil_r. reflexivity.
  - rewrite trim_step_kept.
    + simpl. specialize (IH (pre ++ [pos])).
      rewrite length_app, Nat.add_1_r in IH. apply IH.
      now rewrite <- app_assoc.
    + rewrite Hpnl, nth_error_app2, Nat.sub_diag by lia. reflexivity.
Qed.

End AllKept.

(** C9. For a well-formed cell whose fractional positions lie in [[0, 1)]
    and in which no atom matches an earlier one within the tolerance,
    [trim_cell] with the identity as [relative_axes] returns the input
    structure: the same lattice, the same positions, species, masses and
    magnetic moments in the same order, every atom kept
    ([extracted_atoms = [0, ..., N-1]]) and the identity as mapping table. *)
Theorem trim_cell_identity :
  forall (c : Atoms) (symprec : Q) (lattice : mat),
    cell c = Some lattice ->
    well_formed c ->
    (forall p, In p (scaled_positions c) -> in_unit_cell p) ->
    (forall i j pi pj, (i < j)%nat ->
       nth_error (scaled_positions c) i = Some pi ->
       nth_error (scaled_positions c) j = Some pj ->
       overlaps lattice symprec pj pi = false) ->
    exists t,
      trim_cell identity c symprec
      = Ok (t, seq 0 (get_number_of_atoms c), seq 0 (get_number_of_atoms c)) /\
      numbers t = numbers c /\ masses t = masses c /\ magmoms t = magmoms c /\
      Forall2 veq (scaled_positions t) (scaled_positions c) /\
      (exists l, cell t = Some l /\ meq l lattice) /\
      get_number_of_atoms t = get_number_of_atoms c.
Proof.
  intros c s lattice Hcell W Hunit Hapart.
  destruct inv_identity as (ia & Hia & Hmeq).
  set (L := mat_mul (transpose identity) lattice).
  set (pnl := positions_in_new_lattice ia (scaled_positions c)).
  assert (Hlen : length pnl = length (scaled_positions c))
    by apply positions_in_new_lattice_length.
  assert (Hpnl : forall k q, nth_error pnl k = Some q ->
            exists p, nth_error (scaled_positions c) k = Some p /\ veq q p).
  { intros k q Hq. unfold pnl, positions_in_new_lattice in Hq.
    rewrite nth_error_map in Hq.
    destruct (nth_error (scaled_positions c) k) as [p|] eqn:E; [|discriminate].
    inversion Hq; subst q. exists p. split; [reflexivity|].
    apply fold_in_unit_cell.
    - now apply vec_mat_transpose_identity.
    - apply Hunit. eapply nth_error_In; eauto. }
  assert (Hap : forall i j pi pj, (i < j)%nat ->
            nth_error pnl i = Some pi -> nth_error pnl j = Some pj ->
            overlaps L s pj pi = false).
  { intros i j qi qj Hij Hi Hj.
    destruct (Hpnl _ _ Hi) as (pi & Hpi & Ei). destruct (Hpnl _ _ Hj) as (pj & Hpj & Ej).
    rewrite (overlaps_comp L lattice s qj pj qi pi); auto.
    - eapply Hapart; eauto.
    - apply mat_mul_transpose_identity. }
  pose proof (trim_loop_kept L s c pnl W Hlen Hap pnl [] eq_refl) as Hloop.
  simpl in Hloop.
  exists (mkAtoms (firstn (length pnl) (numbers c))
                  (option_map (firstn (length pnl)) (masses c))
                  (option_map (firstn (length pnl)) (magmoms c))
                  (firstn (length pnl) pnl) (Some L) true).
  destruct W as (Wn & Wm & Wg).
  assert (Hopt : forall o : option (list Q),
            (forall l, o = Some l -> length l = length (scaled_positions c)) ->
            option_map (firstn (length pnl)) o = o).
  { intros [l|] Hl; simpl; [|reflexivity].
    rewrite Hlen, <- (Hl l eq_refl), firstn_all. reflexivity. }
  split; [|repeat split].
  - rewrite (trim_cell_unfold identity c s lattice ia Hcell Hia).
    fold L. fold pnl. unfold enumerate.
    assert (Hinit : trim_init c = kept_all c pnl 0).
    { unfold trim_init, kept_all. simpl. destruct (masses c), (magmoms c); reflexivity. }
    rewrite Hinit, Hloop. simpl. unfold get_number_of_atoms. rewrite Hlen. reflexivity.
  - simpl. rewrite Hlen, <- Wn. apply firstn_all.
  - simpl. now apply Hopt.
  - simpl. now apply Hopt.
  - simpl. rewrite firstn_all.
    clear - Hpnl. unfold pnl in *.
    assert (G : forall ps qs, length qs = length ps ->
              (forall k q, nth_error qs k = Some q ->
                 exists p, nth_error ps k = Some p /\ veq q p) -> Forall2 veq qs ps).
    { induction ps as [|p ps IH]; intros [|q qs] Hl Hk; simpl in *; try discriminate.
      - constructor.
      - constructor.
        + destruct (Hk 0%nat q eq_refl) as (p' & Hp' & E). inversion Hp'; subst. exact E.
        + apply IH; [lia|]. intros k q' Hq'. apply (Hk (S k) q' Hq'). }
    apply G; [apply positions_in_new_lattice_length|exact Hpnl].
  - exists L. split; [reflexivity|apply mat_mul_transpose_identity].
  - unfold get_number_of_atoms. simpl. rewrite firstn_all. exact Hlen.
Qed.

Lemma trim_cell_identity_witness :
  exists t,
    trim_cell identity two_atoms (1 # 100000) = Ok (t, [0; 1]%nat, [0; 1]%nat) /\
    numbers t = [14%Z; 14%Z] /\ get_number_of_atoms t = 2%nat.
Proof.
  destruct (trim_cell_identity two_atoms (1 # 100000) (cubic 4)) as (t & H1 & H2 & _ & _ & _ & _ & H7).
  - reflexivity.
  - unfold well_formed. simpl. repeat split.
    + intros ms H. inversion H. reflexivity.
    + intros mm H. discriminate.
  - simpl. intros p [<-|[<-|[]]]; unfold in_unit_cell; simpl; repeat split;
      first [apply Qle_refl | reflexivity | discriminate].
  - intros [|[|i]] [|[|[|j]]] pi pj Hij Hi Hj; simpl in *; try lia;
      try discriminate; try (destruct i; discriminate).
    inversion Hi; inversion Hj; subst. vm_compute. reflexivity.
  - exists t. repeat split; assumption.
Defined.

(** ** [Primitive._supercell_to_primitive_map] *)

(** The inner loop stops at the first entry of [p2s_map] that matches. *)
Lemma first_match_Some inv_F symprec pos s_pos : forall p2s_map j,
  first_match inv_F symprec pos s_pos p2s_map = Ok (Some j) ->
  exists before after pj,
    p2s_map = before ++ j :: after /\
    nth_error pos j = Some pj /\
    (let diff := vsub (vec_mat pj (transpose inv_F)) s_pos in
     all_within symprec (vsub diff (vmap np_rint diff)) = true) /\
    forall k pk, In k before -> nth_error pos k = Some pk ->
      let diff := vsub (vec_mat pk (transpose inv_F)) s_pos in
      all_within symprec (vsub diff (vmap np_rint diff)) = false.
Proof.
  induction p2s_map as [|k rest IH]; intros j H; simpl in H; [discriminate|].
  apply bind_Ok_inv in H. destruct H as (pk & Hpk & H). apply getitem_Ok in Hpk.
  destruct (all_within symprec _) eqn:E.
  - inversion H; subst k. exists [], rest, pk. repeat split; auto.
    intros k pk' [].
  - destruct (IH j H) as (before & after & pj & -> & Hpj & Hm & Hb).
    exists (k :: before), after, pj. repeat split; auto.
    intros k' pk' [<-|Hin] Hk'.
    + rewrite Hpk in Hk'. inversion Hk'; subst. exact E.
    + eapply Hb; eauto.
Qed.

(** When every supercell atom matches some atom of [p2s_map], the map has
    one entry per supercell atom, each the first match of its atom. *)
Lemma s2p_map_all_matched primitive_matrix p2s_map symprec pos inv_F :
  inv primitive_matrix = Ok inv_F ->
  (forall i pi, nth_error pos i = Some pi ->
     exists j, first_match inv_F symprec pos (vec_mat pi (transpose inv_F)) p2s_map
               = Ok (Some j)) ->
  exists s2p,
    _supercell_to_primitive_map primitive_matrix p2s_map symprec pos = Ok s2p /\
    length s2p = length pos /\
    forall i pi j, nth_error pos i = Some pi -> nth_error s2p i = Some j ->
      first_match inv_F symprec pos (vec_mat pi (transpose inv_F)) p2s_map = Ok (Some j).
Proof.
  intros Hinv Hall. unfold _supercell_to_primitive_map. rewrite Hinv. simpl.
  assert (G : forall n acc, (n <= length pos)%nat ->
    length acc = (length pos - n)%nat ->
    (forall i pi j, nth_error pos i = Some pi -> nth_error acc i = Some j ->
       first_match inv_F symprec pos (vec_mat pi (transpose inv_F)) p2s_map = Ok (Some j)) ->
    exists s2p,
      for_each (seq (length pos - n) n) (fun s2p_map i =>
        pi <- getitem pos i ;;
        found <- first_match inv_F symprec pos (vec_mat pi (transpose inv_F)) p2s_map ;;
        match found with Some j => Ok (s2p_map ++ [j]) | None => Ok s2p_map end) acc
      = Ok s2p /\
      length s2p = length pos /\
      forall i pi j, nth_error pos i = Some pi -> nth_error s2p i = Some j ->
        first_match inv_F symprec pos (vec_mat pi (transpose inv_F)) p2s_map = Ok (Some j)).
  { induction n as [|n IH]; intros acc Hn Hlen Hacc; simpl.
    - exists acc. repeat split; auto. lia.
    - destruct (getitem_lt pos (length pos - S n)) as (pi & Hpi); [lia|].
      rewrite Hpi. simpl. apply getitem_Ok in Hpi.
      destruct (Hall _ _ Hpi) as (j & Hj). rewrite Hj. simpl.
      replace (S (length pos - S n)) with (length pos - n)%nat by lia.
      apply IH; [lia|rewrite length_app; simpl; lia|].
      intros i pi' j' Hi Hj'.
      destruct (Nat.lt_ge_cases i (length acc)) as [Hlt|Hge].
      + rewrite nth_error_app1 in Hj' by assumption. eapply Hacc; eauto.
      + rewrite nth_error_app2 in Hj' by assumption.
        destruct (i - length acc)%nat as [|d] eqn:Ed; simpl in Hj'.
        * inversion Hj'; subst j'. assert (i = (length pos - S n)%nat) by lia. subst i.
          rewrite Hpi in Hi. inversion Hi; subst. exact Hj.
        * destruct d; discriminate. }
  specialize (G (length pos) [] (le_n _)).
  rewrite Nat.sub_diag in G. apply G; [reflexivity|].
  intros i pi j _ H. destruct i; discriminate.
Qed.

(** An example, [Primitive(close_pair, identity, 1e-5)]: the trim merges
    the second atom into the first ([_p2s_map = [0]]), the second atom matches
    no primitive atom in [_supercell_to_primitive_map], and the call returns
    the map [[0]], with one entry for two supercell atoms. *)
Lemma s2p_map_unmatched_atom_skipped :
  (exists t, _primitive_cell identity close_pair (1 # 100000) = Ok (t, [0%nat])) /\
  (forall inv_F, inv identity = Ok inv_F ->
     first_match inv_F (1 # 100000) (scaled_positions close_pair)
       (vec_mat (V3 (15 # 1000000) 0 0) (transpose inv_F)) [0%nat] = Ok None) /\
  _supercell_to_primitive_map identity [0%nat] (1 # 100000) (scaled_positions close_pair)
  = Ok [0%nat].
Proof.
  split; [|split].
  - eexists. vm_compute. reflexivity.
  - intros inv_F H. vm_compute in H. inversion H; subst. vm_compute. reflexivity.
  - vm_compute. reflexivity.
Qed.

(** ** Delaunay reduction *)

Lemma find_none_iff {A} (f : A -> bool) l :
  find f l = None <-> forall x, In x l -> f x = false.
Proof.
  split; [apply find_none|].
  induction l as [|a t IH]; intros H; simpl; [reflexivity|].
  rewrite (H a (or_introl eq_refl)). apply IH. intros x Hx. apply H. now right.
Qed.

#[local] Arguments Qplus : simpl never.
#[local] Arguments Qmult : simpl never.
#[local] Arguments Qopp : simpl never.
#[local] Arguments Qminus : simpl never.
#[local] Arguments Qdiv : simpl never.
#[local] Arguments Qinv : simpl never.
#[local] Arguments Qabs : simpl never.
#[local] Arguments Qle_bool : simpl never.
#[local] Arguments Qeq : simpl never.
#[local] Arguments Qle : simpl never.
#[local] Arguments Qlt : simpl never.
#[local] Arguments inject_Z : simpl never.

(** One call of [_reduce_bases] on four vectors that sum to zero: they still
    sum to zero and the determinant of the first three only changes sign. *)
Lemma reduce_bases_invariant eb tol :
  sum_zero eb ->
  sum_zero (fst (_reduce_bases eb tol)) /\
  Qabs (volume (fst (_reduce_bases eb tol))) == Qabs (volume eb).
Proof.
  destruct eb as [|a [|b [|c [|d [|e r]]]]]; simpl; try tauto.
  intros (Hx & Hy & Hz). simpl in Hx, Hy, Hz.
  unfold _reduce_bases.
  destruct (find _ _) as [[i j]|] eqn:E.
  - apply find_some in E. destruct E as (Hin & _). simpl in Hin.
    assert (Hneg : forall x y : Q, x == - y -> Qabs x == Qabs y)
      by (intros x y ->; apply Qabs_opp).
    repeat (destruct Hin as [Hin|Hin]; [inversion Hin; subst i j; clear Hin|]);
      try contradiction; simpl; unfold volume, veq; simpl;
      (split; [repeat split; lra|]); apply Hneg; unfold det3; simpl; ring.
  - simpl. unfold veq. simpl. split; [auto|reflexivity].
Qed.

Lemma reduce_bases_done eb tol :
  snd (_reduce_bases eb tol) = true ->
  fst (_reduce_bases eb tol) = eb /\ obtuse eb tol.
Proof.
  unfold _reduce_bases.
  destruct (find _ _) as [[i j]|] eqn:E; simpl; [discriminate|].
  intros _. split; [reflexivity|].
  intros i j Hij. rewrite find_none_iff in E.
  specialize (E (i, j)). simpl in E. apply Qltb_ge. apply E.
  assert (Hi : (i = 0 \/ i = 1 \/ i = 2)%nat) by lia.
  assert (Hj : (j = 1 \/ j = 2 \/ j = 3)%nat) by lia.
  destruct Hi as [-> | [-> | ->]], Hj as [-> | [-> | ->]]; simpl; try lia; tauto.
Qed.

Lemma reduce_passes_invariant tol : forall n eb,
  sum_zero eb ->
  sum_zero (reduce_passes n eb tol) /\
  Qabs (volume (reduce_passes n eb tol)) == Qabs (volume eb).
Proof.
  induction n as [|n IH]; intros eb H; simpl.
  - split; [assumption|reflexivity].
  - destruct (reduce_bases_invariant eb tol H) as (H1 & H2).
    destruct (IH _ H1) as (H3 & H4). split; [assumption|].
    now rewrite H4.
Qed.

Lemma last_default_irrelevant {A} (l : list A) d d' :
  l <> [] -> List.last l d = List.last l d'.
Proof.
  induction l as [|a [|b t] IH]; intros H; simpl; try congruence.
  apply IH. discriminate.
Qed.

(** What the loop of [get_Delaunay_reduction] leaves: the bases after some
    number of calls, and either a call that reported completion or the index
    of the last pass. *)
Lemma reduce_loop_spec tol : forall indices last eb eb' i,
  reduce_loop indices last eb tol = (eb', i) ->
  exists n, (n <= length indices)%nat /\ eb' = reduce_passes n eb tol /\
    ((snd (_reduce_bases eb' tol) = true /\
      forall k, (k < n)%nat -> snd (_reduce_bases (reduce_passes k eb tol) tol) = false)
     \/
     (n = length indices /\ i = List.last indices last /\
      forall k, (k < n)%nat -> snd (_reduce_bases (reduce_passes k eb tol) tol) = false)).
Proof.
  induction indices as [|x rest IH]; intros last eb eb' i H; simpl in H.
  - inversion H; subst. exists 0%nat. split; [lia|]. split; [reflexivity|].
    right. repeat split. intros k Hk. lia.
  - destruct (_reduce_bases eb tol) as [eb1 done] eqn:E. destruct done.
    + inversion H; subst. exists 0%nat. split; [simpl; lia|].
      assert (Hd : snd (_reduce_bases eb tol) = true) by now rewrite E.
      destruct (reduce_bases_done eb tol Hd) as (Hfst & _).
      rewrite E in Hfst. simpl in Hfst. subst eb'.
      split; [reflexivity|]. left. split; [exact Hd|]. intros k Hk. lia.
    + destruct (IH x eb1 eb' i H) as (n & Hn & Heb & Hcase).
      assert (Hfst : fst (_reduce_bases eb tol) = eb1) by now rewrite E.
      assert (Hsnd : snd (_reduce_bases eb tol) = false) by now rewrite E.
      exists (S n). split; [simpl; lia|]. split; [simpl; now rewrite Hfst|].
      assert (Hall : (forall k, (k < n)%nat ->
                        snd (_reduce_bases (reduce_passes k eb1 tol) tol) = false) ->
                     forall k, (k < S n)%nat ->
                        snd (_reduce_bases (reduce_passes k eb tol) tol) = false).
      { intros Hk [|k] Hlt; simpl; [exact Hsnd|]. rewrite Hfst. apply Hk. lia. }
      destruct Hcase as [(Hd & Hk)|(Hn' & Hi & Hk)].
      * left. split; [exact Hd|]. now apply Hall.
      * right. subst n. split; [reflexivity|]. split; [|now apply Hall].
        rewrite Hi. destruct rest as [|y r]; [reflexivity|].
        change (List.last (x :: y :: r) last) with (List.last (y :: r) last).
        apply last_default_irrelevant. discriminate.
Qed.

Lemma extend_sum_zero lattice : sum_zero (extend lattice).
Proof. unfold extend, sum_zero, veq; simpl. repeat split; ring. Qed.

Lemma insert_by_perm key x l : Permutation (insert_by key x l) (x :: l).
Proof.
  induction l as [|y t IH]; simpl; [reflexivity|].
  destruct (Qle_bool (key x) (key y)); [reflexivity|].
  rewrite IH. apply perm_swap.
Qed.

Lemma sorted_by_perm key l : Permutation (sorted_by key l) l.
Proof.
  induction l as [|x t IH]; simpl; [reflexivity|].
  rewrite insert_by_perm. now constructor.
Qed.

(** Every row that [_get_shortest_bases_from_extented_bases] can return is
    one of the seven candidates. *)
Lemma sorted_row_candidate eb i :
  (i < 7)%nat -> In (row vzero (sorted_by norm2 (candidate_bases eb)) i) (candidate_bases eb).
Proof.
  intros Hi. pose proof (sorted_by_perm norm2 (candidate_bases eb)) as P.
  apply (Permutation_in _ P). apply nth_In.
  rewrite (Permutation_length P). simpl. exact Hi.
Qed.

Lemma shortest_bases_rows eb tol :
  let B := fst (_get_shortest_bases_from_extented_bases eb tol) in
  In (row0 B) (candidate_bases eb) /\ In (row1 B) (candidate_bases eb) /\
  In (row2 B) (candidate_bases eb).
Proof.
  unfold _get_shortest_bases_from_extented_bases, choose_independent.
  destruct (find _ _) as [[[i j] k]|] eqn:E; simpl.
  - apply find_some in E. destruct E as (Hin & _).
    apply in_flat_map in Hin. destruct Hin as (i' & Hi' & Hin).
    apply in_flat_map in Hin. destruct Hin as (j' & Hj' & Hin).
    apply in_map_iff in Hin. destruct Hin as (k' & Hk & Hk').
    inversion Hk; subst i' j' k'.
    unfold nrange in *. rewrite in_seq in Hi', Hj', Hk'.
    repeat split; apply sorted_row_candidate; lia.
  - repeat split; apply sorted_row_candidate; lia.
Qed.

Lemma det3_comp a a' b b' c c' :
  veq a a' -> veq b b' -> veq c c' -> det3 a b c == det3 a' b' c'.
Proof.
  unfold veq, det3. intros (A1 & A2 & A3) (B1 & B2 & B3) (C1 & C2 & C3).
  now rewrite A1, A2, A3, B1, B2, B3, C1, C2, C3.
Qed.

(** The determinant of three combinations of the rows of a matrix. *)
Lemma det3_vec_mat p q r m :
  det3 (vec_mat p m) (vec_mat q m) (vec_mat r m) == det3 p q r * mdet m.
Proof.
  destruct m as [[a1 a2 a3] [b1 b2 b3] [c1 c2 c3]], p, q, r.
  unfold det3, mdet, vec_mat, vdot, det3; simpl. ring.
Qed.

Lemma candidate_is_combination a b c d v :
  sum_zero [a; b; c; d] ->
  In v (candidate_bases [a; b; c; d]) ->
  exists k, In k candidate_coefficients /\ veq v (vec_mat k (M3 a b c)).
Proof.
  intros (Hx & Hy & Hz) Hin. simpl in Hx, Hy, Hz.
  unfold candidate_bases in Hin. simpl in Hin.
  assert (G : forall k, In k candidate_coefficients -> veq v (vec_mat k (M3 a b c)) ->
            exists k, In k candidate_coefficients /\ veq v (vec_mat k (M3 a b c)))
    by eauto.
  destruct Hin as [<-|[<-|[<-|[<-|[<-|[<-|[<-|[]]]]]]]].
  - apply (G (V3 1 0 0)); [simpl; tauto|]. unfold veq, vec_mat, vdot; simpl. repeat split; ring.
  - apply (G (V3 0 1 0)); [simpl; tauto|]. unfold veq, vec_mat, vdot; simpl. repeat split; ring.
  - apply (G (V3 0 0 1)); [simpl; tauto|]. unfold veq, vec_mat, vdot; simpl. repeat split; ring.
  - apply (G (V3 (-1) (-1) (-1))); [simpl; tauto|].
    unfold veq, vec_mat, vdot; simpl. repeat split; lra.
  - apply (G (V3 1 1 0)); [simpl; tauto|]. unfold veq, vec_mat, vdot; simpl. repeat split; ring.
  - apply (G (V3 0 1 1)); [simpl; tauto|]. unfold veq, vec_mat, vdot; simpl. repeat split; ring.
  - apply (G (V3 1 0 1)); [simpl; tauto|]. unfold veq, vec_mat, vdot; simpl. repeat split; ring.
Qed.

Lemma coefficient_determinants :
  forallb (fun p => forallb (fun q => forallb (fun r =>
     let d := Qabs (det3 p q r) in
     Qeq_bool d 0 || Qeq_bool d 1 || Qeq_bool d 2)
   candidate_coefficients) candidate_coefficients) candidate_coefficients = true.
Proof. vm_compute. reflexivity. Qed.

Lemma coefficient_determinant_small p q r :
  In p candidate_coefficients -> In q candidate_coefficients ->
  In r candidate_coefficients ->
  Qabs (det3 p q r) == 0 \/ Qabs (det3 p q r) == 1 \/ Qabs (det3 p q r) == 2.
Proof.
  intros Hp Hq Hr. pose proof coefficient_determinants as H.
  rewrite forallb_forall in H. specialize (H p Hp).
  rewrite forallb_forall in H. specialize (H q Hq).
  rewrite forallb_forall in H. specialize (H r Hr).
  cbv zeta in H. apply orb_true_iff in H. destruct H as [H|H].
  - apply orb_true_iff in H. destruct H as [H|H]; apply Qeq_bool_iff in H; auto.
  - apply Qeq_bool_iff in H. auto.
Qed.

(** The determinant of any three candidates is 0, 1 or 2 times that of the
    first three extended vectors, up to sign. *)
Lemma candidate_determinant eb u v w :
  sum_zero eb ->
  In u (candidate_bases eb) -> In v (candidate_bases eb) -> In w (candidate_bases eb) ->
  Qabs (det3 u v w) == 0 \/ Qabs (det3 u v w) == Qabs (volume eb) \/
  Qabs (det3 u v w) == 2 * Qabs (volume eb).
Proof.
  destruct eb as [|a [|b [|c [|d [|e r]]]]]; simpl; try tauto.
  intros Hs Hu Hv Hw.
  destruct (candidate_is_combination a b c d u Hs Hu) as (p & Hp & Eu).
  destruct (candidate_is_combination a b c d v Hs Hv) as (q & Hq & Ev).
  destruct (candidate_is_combination a b c d w Hs Hw) as (r & Hr & Ew).
  assert (E : Qabs (det3 u v w) == Qabs (det3 p q r) * Qabs (volume [a; b; c; d])).
  { rewrite (det3_comp _ _ _ _ _ _ Eu Ev Ew), det3_vec_mat, Qabs_Qmult. reflexivity. }
  rewrite E.
  destruct (coefficient_determinant_small p q r Hp Hq Hr) as [H|[H|H]]; rewrite H.
  - left. ring.
  - right. left. ring.
  - right. right. reflexivity.
Qed.

Lemma shortest_bases_degenerate eb tol :
  (forall a b c, In a (candidate_bases eb) -> In b (candidate_bases eb) ->
                 In c (candidate_bases eb) -> Qabs (det3 a b c) <= tol) ->
  _get_shortest_bases_from_extented_bases eb tol
  = (three_shortest eb, [Line "Delaunary reduction is failed."]).
Proof.
  intros H. unfold _get_shortest_bases_from_extented_bases, choose_independent.
  destruct (find _ _) as [[[i j] k]|] eqn:E; [|reflexivity].
  apply find_some in E. destruct E as (Hin & Ht).
  apply in_flat_map in Hin. destruct Hin as (i' & Hi' & Hin).
  apply in_flat_map in Hin. destruct Hin as (j' & Hj' & Hin).
  apply in_map_iff in Hin. destruct Hin as (k' & Hk & Hk').
  inversion Hk; subst i' j' k'.
  unfold nrange in *. rewrite in_seq in Hi', Hj', Hk'.
  apply Qltb_lt in Ht. exfalso. apply (Qlt_not_le _ _ Ht).
  apply H; apply sorted_row_candidate; lia.
Qed.

Lemma pair_eq_inv {A B} (a c : A) (b d : B) : (a, b) = (c, d) -> a = c /\ b = d.
Proof. intros H. inversion H. auto. Qed.

Lemma get_Delaunay_reduction_unfold lattice tol eb i :
  reduce_loop (nrange 0 100) 0 (extend lattice) tol = (eb, i) ->
  get_Delaunay_reduction lattice tol =
  (fst (_get_shortest_bases_from_extented_bases eb tol),
   (if (i =? 99)%nat then [Line "Delaunary reduction was failed."] else [])
   ++ snd (_get_shortest_bases_from_extented_bases eb tol)).
Proof.
  intros E. unfold get_Delaunay_reduction. rewrite E.
  destruct (_get_shortest_bases_from_extented_bases eb tol) as [B out]. reflexivity.
Qed.

Lemma volume_extend lattice : volume (extend lattice) = mdet lattice.
Proof. reflexivity. Qed.

(** The bases the loop leaves, whatever the number of calls it made. *)
Lemma reduce_loop_invariant lattice tol eb i :
  reduce_loop (nrange 0 100) 0 (extend lattice) tol = (eb, i) ->
  sum_zero eb /\ Qabs (volume eb) == Qabs (mdet lattice).
Proof.
  intros E.
  destruct (reduce_loop_spec tol _ _ _ _ _ E) as (n & _ & -> & _).
  rewrite <- volume_extend.
  apply reduce_passes_invariant, extend_sum_zero.
Qed.

Lemma forall_below_forallb (P : nat -> bool) n :
  forallb P (seq 0 n) = true -> forall k, (k < n)%nat -> P k = true.
Proof.
  intros H k Hk. rewrite forallb_forall in H. apply H. apply in_seq. lia.
Qed.

(** An example: the lattice with rows (10,3,0), (-10,3,0), (0,-3,10) is not
    degenerate, and with tolerance 1e-5 the basis [get_Delaunay_reduction]
    returns has rows (0,6,0) and (10,3,0), whose dot product is 18: a sum of
    two extended vectors can be among the three shortest candidates. *)
Lemma delaunay_output_positive_dot_product :
  let B := fst (get_Delaunay_reduction flat_lattice (1 # 100000)) in
  ~ mdet flat_lattice == 0 /\
  veq (row0 B) (V3 0 6 0) /\ veq (row1 B) (V3 10 3 0) /\
  (1 # 100000) < vdot (row0 B) (row1 B).
Proof.
  cbv zeta. split; [|split; [|split]].
  - intros H. apply Qeq_bool_iff in H. vm_compute in H. discriminate.
  - unfold veq. repeat split; apply Qeq_bool_iff; vm_compute; reflexivity.
  - unfold veq. repeat split; apply Qeq_bool_iff; vm_compute; reflexivity.
  - apply Qltb_lt. vm_compute. reflexivity.
Qed.

(** X2. For every lattice and tolerance, the four extended vectors that
    the loop of [get_Delaunay_reduction] leaves sum to zero and the
    determinant of the first three has the magnitude of the determinant of
    the input lattice; when one of the 100 calls of [_reduce_bases] reports
    completion, all their pairwise dot products are at most the tolerance.
    The rows of the basis returned are three of the seven candidates (those
    four vectors and three pairwise sums), and the magnitude of its
    determinant is 0, 1 or 2 times that of the input. *)
Theorem delaunay_reduction_properties :
  forall (lattice : mat) (tolerance : Q) (eb : list vec) (i : nat)
         (B : mat) (out : list printed),
    reduce_loop (nrange 0 100) 0 (extend lattice) tolerance = (eb, i) ->
    get_Delaunay_reduction lattice tolerance = (B, out) ->
    sum_zero eb /\
    Qabs (volume eb) == Qabs (mdet lattice) /\
    ((exists k, (k < 100)%nat /\
        snd (_reduce_bases (reduce_passes k (extend lattice) tolerance) tolerance) = true) ->
     obtuse eb tolerance) /\
    In (row0 B) (candidate_bases eb) /\
    In (row1 B) (candidate_bases eb) /\
    In (row2 B) (candidate_bases eb) /\
    (Qabs (mdet B) == 0 \/ Qabs (mdet B) == Qabs (mdet lattice) \/
     Qabs (mdet B) == 2 * Qabs (mdet lattice)).
Proof.
  intros lattice tol eb i B out E HB.
  destruct (reduce_loop_invariant lattice tol eb i E) as (Hs & Hv).
  rewrite (get_Delaunay_reduction_unfold lattice tol eb i E) in HB.
  apply pair_eq_inv in HB. destruct HB as (HB & _). subst B.
  destruct (shortest_bases_rows eb tol) as (R0 & R1 & R2).
  split; [exact Hs|]. split; [exact Hv|].
  split; [|split; [exact R0|split; [exact R1|split; [exact R2|]]]].
  - intros (k & Hk & Hdone).
    destruct (reduce_loop_spec tol _ _ _ _ _ E) as (n & Hn & Heb & [(Hd & _)|(Hn' & _ & Hall)]).
    + apply reduce_bases_done. exact Hd.
    + unfold nrange in Hn'. rewrite length_seq in Hn'.
      rewrite Hall in Hdone by lia. discriminate.
  - rewrite <- Hv. unfold mdet. now apply candidate_determinant.
Qed.

(** An example: on the lattice with rows (1,0,0), (60,1,0), (0,0,1) none of
    the 100 calls of [_reduce_bases] reports completion, and
    [get_Delaunay_reduction] prints a line and returns a basis, the one with
    rows (1,0,0), (0,0,1), (10,1,0). *)
Lemma delaunay_not_converged_returns_basis :
  (forall k, (k < 100)%nat ->
     snd (_reduce_bases (reduce_passes k (extend sheared_lattice) (1 # 100000))
            (1 # 100000)) = false) /\
  exists B, get_Delaunay_reduction sheared_lattice (1 # 100000)
            = (B, [Line "Delaunary reduction was failed."]) /\
            meq B (qmat 1 0 0 0 0 1 10 1 0).
Proof.
  split.
  - intros k Hk.
    apply (forall_below_forallb
             (fun k => negb (snd (_reduce_bases
                (reduce_passes k (extend sheared_lattice) (1 # 100000)) (1 # 100000))))
             100) in Hk.
    + now apply negb_true_iff in Hk.
    + vm_compute. reflexivity.
  - eexists. split; [vm_compute; reflexivity|].
    unfold meq, veq. repeat split; apply Qeq_bool_iff; vm_compute; reflexivity.
Qed.

(** When no call reports completion, the loop makes its 100 calls and
    leaves index 99. *)
Lemma reduce_loop_exhausted lattice tol :
  (forall k, (k < 100)%nat ->
     snd (_reduce_bases (reduce_passes k (extend lattice) tol) tol) = false) ->
  reduce_loop (nrange 0 100) 0 (extend lattice) tol
  = (reduce_passes 100 (extend lattice) tol, 99%nat).
Proof.
  intros H.
  destruct (reduce_loop (nrange 0 100) 0 (extend lattice) tol) as [eb i] eqn:E.
  destruct (reduce_loop_spec tol _ _ _ _ _ E) as (n & Hn & Heb & [(Hd & Hall)|(Hn' & Hi & _)]).
  - unfold nrange in Hn. rewrite length_seq in Hn.
    destruct (Nat.eq_dec n 100) as [->|Hne].
    + f_equal; [exact Heb|].
      (* the call after the 100th pass is never made: only [i] matters *)
      clear Hd. revert E. subst eb.
      assert (G : forall indices last eb0 eb1 j,
                reduce_loop indices last eb0 tol = (eb1, j) ->
                indices <> [] -> In j indices).
      { induction indices as [|x rest IH]; intros last eb0 eb1 j Hr Hne; [congruence|].
        simpl in Hr. destruct (_reduce_bases eb0 tol) as [e1 d1]. destruct d1.
        - inversion Hr. now left.
        - destruct rest as [|y r].
          + simpl in Hr. inversion Hr. now left.
          + right. eapply IH; eauto. discriminate. }
      intros E.
      assert (G2 : forall m indices last eb0 eb1 j,
                reduce_loop indices last eb0 tol = (eb1, j) ->
                eb1 = reduce_passes m eb0 tol ->
                (forall k, (k < m)%nat ->
                   snd (_reduce_bases (reduce_passes k eb0 tol) tol) = false) ->
                m = length indices -> j = List.last indices last).
      { induction m as [|m IH]; intros indices last eb0 eb1 j Hr He Hk Hm.
        - destruct indices; [|discriminate]. simpl in Hr. inversion Hr. reflexivity.
        - destruct indices as [|x rest]; [discriminate|]. simpl in Hr.
          pose proof (Hk 0%nat (Nat.lt_0_succ _)) as H0. simpl in H0.
          destruct (_reduce_bases eb0 tol) as [e1 d1] eqn:E1. simpl in H0. subst d1.
          assert (Hj : j = List.last rest x).
          { eapply (IH rest x e1 eb1 j Hr).
            - rewrite He. simpl. now rewrite E1.
            - intros k Hlt. specialize (Hk (S k)). simpl in Hk. rewrite E1 in Hk.
              apply Hk. lia.
            - simpl in Hm. lia. }
          rewrite Hj. destruct rest as [|y r]; [reflexivity|].
          change (List.last (x :: y :: r) last) with (List.last (y :: r) last).
          apply last_default_irrelevant. discriminate. }
      rewrite (G2 100%nat _ _ _ _ _ E eq_refl H); [reflexivity|].
      unfold nrange. now rewrite length_seq.
    + rewrite Heb in Hd. rewrite H in Hd by lia. discriminate.
  - unfold nrange in Hn'. rewrite length_seq in Hn'. subst n.
    f_equal; [exact Heb|]. rewrite Hi. reflexivity.
Qed.



Lemma delaunay_reduction_properties_witness :
  exists eb i B out,
    reduce_loop (nrange 0 100) 0 (extend flat_lattice) (1 # 100000) = (eb, i) /\
    get_Delaunay_reduction flat_lattice (1 # 100000) = (B, out) /\
    sum_zero eb /\ In (row0 B) (candidate_bases eb) /\
    (Qabs (mdet B) == 0 \/ Qabs (mdet B) == Qabs (mdet flat_lattice) \/
     Qabs (mdet B) == 2 * Qabs (mdet flat_lattice)).
Proof.
  assert (E : exists r, reduce_loop (nrange 0 100) 0 (extend flat_lattice) (1 # 100000) = r)
    by (eexists; vm_compute; reflexivity).
  destruct E as ([eb i] & E).
  assert (H : exists r, get_Delaunay_reduction flat_lattice (1 # 100000) = r)
    by (eexists; vm_compute; reflexivity).
  destruct H as ([B out] & H).
  exists eb, i, B, out.
  destruct (delaunay_reduction_properties _ _ _ _ _ _ E H) as (H1 & _ & _ & H4 & _ & _ & H7).
  auto.
Defined.

(** X1. One call of [_reduce_bases] on four extended vectors that sum to
    zero leaves four vectors that sum to zero, with the same magnitude of
    the determinant of the first three.  It returns [True] only when it
    changed nothing and every pairwise dot product is at most the tolerance,
    and [False] only when some pair has a dot product above the tolerance. *)
Theorem reduce_bases_call :
  forall (extended_bases : list vec) (tolerance : Q),
    sum_zero extended_bases ->
    let r := _reduce_bases extended_bases tolerance in
    sum_zero (fst r) /\
    Qabs (volume (fst r)) == Qabs (volume extended_bases) /\
    (snd r = true -> fst r = extended_bases /\ obtuse extended_bases tolerance) /\
    (snd r = false ->
     exists i j, (i < j < 4)%nat /\
       tolerance < vdot (row vzero extended_bases i) (row vzero extended_bases j)).
Proof.
  intros eb tol Hs. cbv zeta.
  destruct (reduce_bases_invariant eb tol Hs) as (H1 & H2).
  split; [exact H1|]. split; [exact H2|]. split.
  - apply reduce_bases_done.
  - unfold _reduce_bases.
    destruct (find _ _) as [[i j]|] eqn:E; cbn [snd]; [|discriminate].
    intros _. apply find_some in E. destruct E as (Hin & Ht).
    exists i, j. split; [|now apply Qltb_lt].
    apply in_flat_map in Hin. destruct Hin as (i' & Hi' & Hin).
    apply in_map_iff in Hin. destruct Hin as (j' & Hj & Hj').
    inversion Hj; subst i' j'. unfold nrange in *.
    rewrite in_seq in Hi', Hj'. lia.
Qed.

Lemma reduce_bases_call_witness :
  let eb := extend sheared_lattice in
  sum_zero (fst (_reduce_bases eb (1 # 100000))) /\
  snd (_reduce_bases eb (1 # 100000)) = false.
Proof.
  cbv zeta.
  destruct (reduce_bases_call (extend sheared_lattice) (1 # 100000)
              (extend_sum_zero sheared_lattice)) as (H1 & _).
  split; [exact H1|]. vm_compute. reflexivity.
Defined.

(** X3. [get_Delaunay_reduction] reports a failure by printing and still
    returns a basis.  When none of the 100 calls of [_reduce_bases] reports
    completion, it prints "Delaunary reduction was failed." first and
    returns what [_get_shortest_bases_from_extented_bases] selects from the
    bases of the last pass.  When no three of the seven candidates pass the
    test of independence (every determinant at most the tolerance in
    magnitude), [_get_shortest_bases_from_extented_bases] prints
    "Delaunary reduction is failed." and returns the three shortest
    candidates; this always happens for a lattice of determinant zero and a
    non-negative tolerance. *)
Theorem delaunay_failure_is_printed :
  forall (lattice : mat) (tolerance : Q),
    ((forall k, (k < 100)%nat ->
        snd (_reduce_bases (reduce_passes k (extend lattice) tolerance) tolerance) = false) ->
     exists B out,
       get_Delaunay_reduction lattice tolerance
       = (B, Line "Delaunary reduction was failed." :: out) /\
       _get_shortest_bases_from_extented_bases
         (reduce_passes 100 (extend lattice) tolerance) tolerance = (B, out)) /\
    (forall eb,
       (forall a b c, In a (candidate_bases eb) -> In b (candidate_bases eb) ->
                      In c (candidate_bases eb) -> Qabs (det3 a b c) <= tolerance) ->
       _get_shortest_bases_from_extented_bases eb tolerance
       = (three_shortest eb, [Line "Delaunary reduction is failed."])) /\
    (mdet lattice == 0 -> 0 <= tolerance ->
     exists B out,
       get_Delaunay_reduction lattice tolerance
       = (B, out ++ [Line "Delaunary reduction is failed."])).
Proof.
  intros lattice tol. split; [|split].
  - intros H.
    rewrite (get_Delaunay_reduction_unfold lattice tol _ _
               (reduce_loop_exhausted lattice tol H)).
    generalize (_get_shortest_bases_from_extented_bases
                  (reduce_passes 100 (extend lattice) tol) tol).
    intros [B out]. exists B, out. split; reflexivity.
  - intros eb. apply shortest_bases_degenerate.
  - intros Hdet Htol.
    destruct (reduce_loop (nrange 0 100) 0 (extend lattice) tol) as [eb i] eqn:E.
    destruct (reduce_loop_invariant lattice tol eb i E) as (Hs & Hv).
    rewrite (get_Delaunay_reduction_unfold lattice tol eb i E).
    rewrite shortest_bases_degenerate.
    + cbn [fst snd]. eexists. eexists. reflexivity.
    + intros a b c Ha Hb Hc.
      assert (Hz : Qabs (volume eb) == 0) by (rewrite Hv, Hdet; reflexivity).
      destruct (candidate_determinant eb a b c Hs Ha Hb Hc) as [E'|[E'|E']];
        rewrite E', ?Hz; lra.
Qed.

Lemma delaunay_failure_is_printed_witness :
  exists B out, get_Delaunay_reduction sheared_lattice (1 # 100000)
                = (B, Line "Delaunary reduction was failed." :: out).
Proof.
  destruct (delaunay_failure_is_printed sheared_lattice (1 # 100000)) as (H & _).
  destruct delaunay_not_converged_returns_basis as (Hnc & _).
  destruct (H Hnc) as (B & out & HB & _).
  exists B, out. exact HB.
Defined.

(** ** The selection of the three shortest independent candidates *)

Lemma insert_by_ascending key x l :
  ascending key l -> ascending key (insert_by key x l).
Proof.
  unfold ascending. induction 1 as [|y t Hs IH Hy]; simpl.
  - repeat constructor.
  - destruct (Qle_bool (key x) (key y)) eqn:E.
    + apply Qle_bool_iff in E. constructor; [constructor; assumption|].
      constructor; [exact E|].
      eapply Forall_impl; [|exact Hy]. simpl. intros a Ha. eapply Qle_trans; eauto.
    + assert (Hyx : key y <= key x).
      { apply Qlt_le_weak. apply Qnot_le_lt. intros H. apply Qle_bool_iff in H. congruence. }
      constructor; [exact IH|].
      assert (P : Permutation (insert_by key x t) (x :: t)) by apply insert_by_perm.
      apply Forall_forall. intros a Ha.
      apply (Permutation_in _ P) in Ha. destruct Ha as [<-|Ha]; [exact Hyx|].
      rewrite Forall_forall in Hy. now apply Hy.
Qed.

Lemma sorted_by_ascending key l : ascending key (sorted_by key l).
Proof.
  induction l as [|x t IH]; simpl; [constructor|]. now apply insert_by_ascending.
Qed.

Lemma ascending_rows key l i j :
  ascending key l -> (i < j < length l)%nat ->
  key (row vzero l i) <= key (row vzero l j).
Proof.
  unfold ascending, row. intros H. revert i j.
  induction H as [|a t Hs IH Ha]; intros i j Hij; simpl in *; [lia|].
  destruct i as [|i], j as [|j]; try lia.
  - rewrite Forall_forall in Ha. apply Ha. apply nth_In. lia.
  - apply IH. lia.
Qed.

Lemma det3_swap12 a b c : det3 b a c == - det3 a b c.
Proof. unfold det3. ring. Qed.

Lemma det3_swap23 a b c : det3 a c b == - det3 a b c.
Proof. unfold det3. ring. Qed.

Lemma det3_repeat12 a c : det3 a a c == 0.
Proof. unfold det3. ring. Qed.

Lemma det3_repeat23 a c : det3 a c c == 0.
Proof. unfold det3. ring. Qed.

Lemma det3_repeat13 a c : det3 a c a == 0.
Proof. unfold det3. ring. Qed.

(** A bound on the determinant of every ascending triple of rows extends
    to every triple of rows, in any order and with repetitions. *)
Lemma triples_any_order (b : nat -> vec) (n : nat) (tol : Q) :
  (forall i j k, (i < j)%nat -> (j < k)%nat -> (k < n)%nat ->
     Qabs (det3 (b i) (b j) (b k)) <= tol) ->
  (3 <= n)%nat ->
  forall i j k, (i < n)%nat -> (j < n)%nat -> (k < n)%nat ->
    Qabs (det3 (b i) (b j) (b k)) <= tol.
Proof.
  intros H Hn.
  assert (H0 : 0 <= tol).
  { eapply Qle_trans; [apply Qabs_nonneg|]. apply (H 0 1 2)%nat; lia. }
  assert (Hz : forall x, x == 0 -> Qabs x <= tol) by (intros x ->; exact H0).
  assert (Hneg : forall x y, x == - y -> Qabs y <= tol -> Qabs x <= tol)
    by (intros x y ->; now rewrite Qabs_opp).
  intros i j k Hi Hj Hk.
  destruct (Nat.lt_total i j) as [Hij|[->|Hij]];
    [|apply Hz, det3_repeat12|];
    (destruct (Nat.lt_total j k) as [Hjk|[->|Hjk]];
     [|apply Hz, det3_repeat23|]);
    (destruct (Nat.lt_total i k) as [Hik|[->|Hik]];
     [|apply Hz, det3_repeat13|]); try lia.
  - now apply H.
  - (* i < k < j *)
    eapply Hneg; [apply det3_swap23|]. now apply H.
  - (* k < i < j *)
    eapply Hneg; [apply det3_swap23|].
    eapply Hneg; [apply det3_swap12|]. now apply H.
  - (* j < i < k *)
    eapply Hneg; [apply det3_swap12|]. now apply H.
  - (* j < k < i *)
    eapply Hneg; [apply det3_swap12|].
    eapply Hneg; [apply det3_swap23|]. now apply H.
  - (* k < j < i *)
    eapply Hneg; [apply det3_swap12|].
    eapply Hneg; [apply det3_swap23|].
    eapply Hneg; [apply det3_swap12|]. now apply H.
Qed.

Lemma sorted_candidates_length eb :
  length (sorted_by norm2 (candidate_bases eb)) = 7%nat.
Proof.
  rewrite (Permutation_length (sorted_by_perm norm2 (candidate_bases eb))). reflexivity.
Qed.

Lemma candidate_is_sorted_row eb a :
  In a (candidate_bases eb) ->
  exists i, (i < 7)%nat /\ a = row vzero (sorted_by norm2 (candidate_bases eb)) i.
Proof.
  intros Ha.
  apply (Permutation_in _ (Permutation_sym (sorted_by_perm norm2 (candidate_bases eb)))) in Ha.
  destruct (In_nth _ _ vzero Ha) as (i & Hi & E).
  rewrite sorted_candidates_length in Hi. exists i. split; [exact Hi|]. now rewrite <- E.
Qed.

Lemma triple_in_range i j k :
  (i < j)%nat -> (j < k)%nat -> (k < 7)%nat ->
  In (i, j, k)
     (flat_map (fun i => flat_map (fun j => map (fun k => (i, j, k)) (nrange (j + 1) 7))
                                  (nrange (i + 1) 7)) (nrange 0 7)).
Proof.
  intros Hij Hjk Hk. unfold nrange.
  apply in_flat_map. exists i. split; [apply in_seq; lia|].
  apply in_flat_map. exists j. split; [apply in_seq; lia|].
  apply in_map_iff. exists k. split; [reflexivity|apply in_seq; lia].
Qed.

(** The search through any ascending array of seven rows. *)
Lemma choose_independent_spec (l : list vec) tol B out :
  ascending norm2 l -> length l = 7%nat ->
  choose_independent l tol = (B, out) ->
  norm2 (row0 B) <= norm2 (row1 B) /\
  norm2 (row1 B) <= norm2 (row2 B) /\
  ((out = [] /\ tol < Qabs (mdet B)) \/
   (out = [Line "Delaunary reduction is failed."] /\
    B = M3 (row vzero l 0) (row vzero l 1) (row vzero l 2) /\
    forall i j k, (i < 7)%nat -> (j < 7)%nat -> (k < 7)%nat ->
      Qabs (det3 (row vzero l i) (row vzero l j) (row vzero l k)) <= tol)).
Proof.
  intros Hasc Hlen H. unfold choose_independent in H. cbv zeta in H.
  assert (Hord : forall i j, (i < j < 7)%nat ->
            norm2 (row vzero l i) <= norm2 (row vzero l j)).
  { intros i j Hij. apply ascending_rows; [exact Hasc|]. rewrite Hlen. exact Hij. }
  destruct (find _ _) as [[[i j] k]|] eqn:E;
    apply pair_eq_inv in H; destruct H as (<- & <-); cbn [row0 row1 row2].
  - apply find_some in E. destruct E as (Hin & Ht).
    apply in_flat_map in Hin. destruct Hin as (i' & Hi' & Hin).
    apply in_flat_map in Hin. destruct Hin as (j' & Hj' & Hin).
    apply in_map_iff in Hin. destruct Hin as (k' & Hk & Hk').
    inversion Hk; subst i' j' k'.
    unfold nrange in *. rewrite in_seq in Hi', Hj', Hk'.
    split; [apply Hord; lia|]. split; [apply Hord; lia|].
    left. split; [reflexivity|]. now apply Qltb_lt.
  - split; [apply Hord; lia|]. split; [apply Hord; lia|].
    right. split; [reflexivity|]. split; [reflexivity|].
    rewrite find_none_iff in E.
    apply triples_any_order; [|lia]. intros i j k Hij Hjk Hk.
    apply Qltb_ge. apply (E (i, j, k)). now apply triple_in_range.
Qed.

(** X4. The basis [_get_shortest_bases_from_extented_bases] returns has
    its rows in ascending order of squared length.  Either it prints nothing
    and the determinant of the basis exceeds the tolerance in magnitude, or it
    prints "Delaunary reduction is failed.", the basis is made of the three
    shortest candidates, and no three of the seven candidates have a
    determinant above the tolerance in magnitude. *)
Theorem shortest_bases_selection :
  forall (extended_bases : list vec) (tolerance : Q) (B : mat) (out : list printed),
    _get_shortest_bases_from_extented_bases extended_bases tolerance = (B, out) ->
    norm2 (row0 B) <= norm2 (row1 B) /\
    norm2 (row1 B) <= norm2 (row2 B) /\
    ((out = [] /\ tolerance < Qabs (mdet B)) \/
     (out = [Line "Delaunary reduction is failed."] /\
      B = three_shortest extended_bases /\
      forall a b c, In a (candidate_bases extended_bases) ->
                    In b (candidate_bases extended_bases) ->
                    In c (candidate_bases extended_bases) ->
                    Qabs (det3 a b c) <= tolerance)).
Proof.
  intros eb tol B out H. unfold _get_shortest_bases_from_extented_bases in H.
  destruct (choose_independent_spec _ tol B out
              (sorted_by_ascending norm2 (candidate_bases eb))
              (sorted_candidates_length eb) H) as (H1 & H2 & [H3|(H3 & H4 & H5)]).
  - auto.
  - split; [exact H1|]. split; [exact H2|]. right.
    split; [exact H3|]. split; [exact H4|].
    intros a b c Ha Hb Hc.
    destruct (candidate_is_sorted_row eb a Ha) as (i & Hi & ->).
    destruct (candidate_is_sorted_row eb b Hb) as (j & Hj & ->).
    destruct (candidate_is_sorted_row eb c Hc) as (k & Hk & ->).
    now apply H5.
Qed.

Lemma shortest_bases_selection_witness :
  exists B, _get_shortest_bases_from_extented_bases (extend flat_lattice) (1 # 100000)
            = (B, []) /\
            norm2 (row0 B) <= norm2 (row1 B) /\ (1 # 100000) < Qabs (mdet B).
Proof.
  assert (H : exists B, _get_shortest_bases_from_extented_bases
                          (extend flat_lattice) (1 # 100000) = (B, []))
    by (eexists; vm_compute; reflexivity).
  destruct H as (B & H). exists B. split; [exact H|].
  destruct (shortest_bases_selection _ _ _ _ H) as (H1 & _ & [(_ & H3)|(H3 & _)]).
  - split; assumption.
  - discriminate.
Defined.
